(** * Sidetree: the IPFS content store client and the DID document key lookup

    A shallow embedding of [src/lib/ipfs/IpfsStorage.ts] and
    [src/lib/core/versions/latest/DidDocument.ts], with the properties the
    specification states about them.

    Conventions.
    - A JavaScript value of type [T | undefined] is an [option T].
    - A [Buffer] is a list of bytes, [byteLength] its length.
    - Sizes and durations are integers ([Z]).
    - An [async] method is a computation in the [Async] monad below: it
      records the remote calls it issues, in order, and ends by returning a
      value, by throwing, or by never settling. *)

From Stdlib Require Import ZArith Lia.
From stdpp Require Import base list strings gmap.

Local Open Scope Z_scope.

(** ** Values shared by the two files *)

Definition Error : Type := string.
Definition Buffer : Type := list Byte.byte.

Definition byteLength (chunk : Buffer) : Z := Z.of_nat (length chunk).

(** [Buffer.concat(chunks)]. *)
Definition Buffer_concat (chunks : list Buffer) : Buffer := concat chunks.

(** ** Asynchronous computations with a record of remote calls *)

(** The remote calls [IpfsStorage] issues against its node. *)
Inductive Event : Type :=
  | StatCall (hash : string)
  | CatCall (hash : string)
  | NextCall
  | PinAddCall (hash : string).

#[global] Instance Event_eq_dec : EqDecision Event.
Proof. solve_decision. Defined.

(** How an awaited computation ends. *)
Inductive Outcome (A : Type) : Type :=
  | Returns (a : A)
  | Throws (e : Error)
  | Hangs.
Arguments Returns {A} a.
Arguments Throws {A} e.
Arguments Hangs {A}.

Record Async (A : Type) : Type := mkAsync {
  trace : list Event;
  outcome : Outcome A
}.
Arguments mkAsync {A} trace outcome.
Arguments trace {A} _.
Arguments outcome {A} _.

#[global] Instance Async_ret : MRet Async := λ A a, mkAsync [] (Returns a).

#[global] Instance Async_bind : MBind Async := λ A B k m,
  match outcome m with
  | Returns a => mkAsync (trace m ++ trace (k a)) (outcome (k a))
  | Throws e => mkAsync (trace m) (Throws e)
  | Hangs => mkAsync (trace m) Hangs
  end.

Definition throw {A : Type} (e : Error) : Async A := mkAsync [] (Throws e).

(** [await] of a remote call that is not raced against a deadline: the call is
    recorded and whatever it does is what the caller sees. *)
Definition await_call {A : Type} (ev : Event) (o : Outcome A) : Async A :=
  mkAsync [ev] o.

(** A remote call that is raced against a deadline is recorded the same way;
    what the race yields is read off separately. *)
Definition issue (ev : Event) : Async unit := mkAsync [ev] (Returns ()).

(** [try { body } catch (e) { handler e }]. *)
Definition try_catch {A : Type} (body : Async A) (handler : Error → Async A) : Async A :=
  match outcome body with
  | Throws e => mkAsync (trace body ++ trace (handler e)) (outcome (handler e))
  | _ => body
  end.

(** ** The remote store node, as [IpfsStorage] sees it *)

(** What [await AsyncTimeout.timeoutAsyncCall(operation, duration)] can do:
    throw, or return a wrapper whose [result] field is read by the caller.
    [AsyncTimeout] itself is not part of the two files; every property of
    [read] below holds whatever the guard does among these. *)
Inductive Guarded (T : Type) : Type :=
  | Rejected (error : Error)
  | Resolved (result : option T).
Arguments Rejected {T} error.
Arguments Resolved {T} result.

(** The object metadata returned by [node.object.stat]. *)
Record Stat : Type := mkStat { DataSize : option Z }.

(** One step of the iterator returned by [node.cat]. *)
Record IteratorResult : Type := mkIteratorResult {
  value : option Buffer;
  done : bool
}.

(** The node of one client. Each deadline-guarded call takes the duration of
    its guard and answers with what the guard yields for it.
    - [object_stat hash d]: [timeoutAsyncCall(node.object.stat(hash), d)].
    - [cat hash]: [node.cat(hash)] throws, or gives an iterator whose
      successive [timeoutAsyncCall(iterator.next(), d)] are listed; a finished
      iterator answers every further [next()] with [{value: undefined, done: true}].
    - [pin_add hash]: [await node.pin.add(hash)], which no deadline guards. *)
Record IPFS : Type := mkIPFS {
  object_stat : string → Z → Guarded Stat;
  cat : string → Error + list (Z → Guarded IteratorResult);
  pin_add : string → Outcome unit
}.

Definition finished : Z → Guarded IteratorResult :=
  λ _, Resolved (Some {| value := None; done := true |}).

(** ** [FetchResult] *)

Inductive FetchResultCode : Type :=
  | Success
  | NotFound
  | MaxSizeExceeded
  | NotAFile.

#[global] Instance FetchResultCode_eq_dec : EqDecision FetchResultCode.
Proof. solve_decision. Defined.

Record FetchResult : Type := mkFetchResult {
  code : FetchResultCode;
  content : option Buffer
}.

(** The object literal [{ code: c }]. *)
Definition code_only (c : FetchResultCode) : FetchResult :=
  {| code := c; content := None |}.

(** ** [IpfsStorage.read] and [IpfsStorage.fetchContent] *)

Module IpfsStorage.

Definition timeoutDuration : Z := 10000.

(** The locals of [fetchContent] that its loop updates. *)
Record Locals : Type := mkLocals {
  bufferChunks : list Buffer;
  currentContentSize : Z
}.

(** The locals as lines 94 and 95 initialise them. *)
Definition fresh_locals : Locals := {| bufferChunks := []; currentContentSize := 0 |}.

Section Read.

(** [this.node], as the calls [read] makes on it answer. *)
Variable node : IPFS.

(** One pass through the body of the [do ... while (!result.done)] loop,
    lines 103 to 117. [again] is the rest of the loop. The pass ends with
    [Some r] when the body executes [return r], with [None] when the loop
    condition ends the loop. *)
Definition iteration (next : Z → Guarded IteratorResult) (maxSizeInBytes : Z)
    (again : Locals → Async (option FetchResult * Locals)) (l : Locals)
    : Async (option FetchResult * Locals) :=
  issue NextCall ;;
  match next timeoutDuration with
  | Rejected e => throw e
  | Resolved None => mret (Some (code_only NotFound), l)
  | Resolved (Some result) =>
      match value result with
      | Some chunk =>
          let currentContentSize' := currentContentSize l + byteLength chunk in
          if maxSizeInBytes <? currentContentSize' then
            mret (Some (code_only MaxSizeExceeded),
                  {| bufferChunks := bufferChunks l;
                     currentContentSize := currentContentSize' |})
          else
            let l' := {| bufferChunks := bufferChunks l ++ [chunk];
                         currentContentSize := currentContentSize' |} in
            if done result then mret (None, l') else again l'
      | None => if done result then mret (None, l) else again l
      end
  end.

(** The loop, over the steps the iterator still has. Once the steps are used
    up the iterator is finished, and one more pull ends the loop. *)
Fixpoint doWhile (iterator : list (Z → Guarded IteratorResult)) (maxSizeInBytes : Z)
    (l : Locals) : Async (option FetchResult * Locals) :=
  match iterator with
  | [] => iteration finished maxSizeInBytes (λ l', mret (None, l')) l
  | next :: iterator' => iteration next maxSizeInBytes (doWhile iterator' maxSizeInBytes) l
  end.

Definition fetchContent (hash : string) (maxSizeInBytes : Z) : Async FetchResult :=
  try_catch
    (issue (CatCall hash) ;;
     match cat node hash with
     | inl e => throw e
     | inr iterator =>
         '(returned, l) ← doWhile iterator maxSizeInBytes fresh_locals;
         match returned with
         | Some r => mret r
         | None => mret {| code := Success; content := Some (Buffer_concat (bufferChunks l)) |}
         end
     end)
    (λ _, mret (code_only NotAFile)).

Definition read (hash : string) (maxSizeInBytes : Z) : Async FetchResult :=
  issue (StatCall hash) ;;
  match object_stat node hash timeoutDuration with
  | Rejected _ => mret (code_only NotFound)
  | Resolved None => mret (code_only NotFound)
  | Resolved (Some contentMetadata) =>
      match DataSize contentMetadata with
      | None => mret (code_only NotFound)
      | Some dataSize =>
          if dataSize >? maxSizeInBytes then mret (code_only MaxSizeExceeded)
          else
            fetchResult ← fetchContent hash maxSizeInBytes;
            (if decide (code fetchResult = Success)
             then await_call (PinAddCall hash) (pin_add node hash)
             else mret ()) ;;
            mret fetchResult
      end
  end.

End Read.

(** *** The singleton: [createSingleton], [getSingleton], [stop] *)

(** For the life cycle only the identity of a node and whether it still runs
    matter. A node is a reference into the table of the nodes [IPFS.create]
    has opened in this process. *)
Definition NodeRef : Type := nat.

Record NodeState : Type := mkNodeState {
  repo : string;
  running : bool
}.

(** An instance of the class: its one field. *)
Record IpfsStorage : Type := mkIpfsStorage { node : NodeRef }.

(** The process: the static field [ipfsStorageSingleton] and the opened nodes. *)
Record Process : Type := mkProcess {
  ipfsStorageSingleton : option IpfsStorage;
  nodes : gmap NodeRef NodeState
}.

(** A freshly started process: the static field is [undefined]. *)
Definition start : Process :=
  {| ipfsStorageSingleton := None; nodes := ∅ |}.

(** The two errors the class throws, by their messages. *)
Definition AlreadyExists : Error :=
  "IpfsStorage is a singleton thus cannot be created twice. Please use the getSingleton method to get the instance".
Definition NotInitialized : Error :=
  "IpfsStorage is a singleton, Please use the createSingleton method before get".

(** [await IPFS.create(options)] and [await node.stop()] are calls into the
    IPFS library. Whether such a call fails is the library's to say:
    [response] is [Some e] when it throws [e], [None] when it succeeds.
    A successful [create] opens a node no one holds yet; a successful [stop]
    marks the node as stopped. *)
Definition IPFS_create (options_repo : string) (response : option Error) (σ : Process)
    : Outcome NodeRef * Process :=
  match response with
  | Some e => (Throws e, σ)
  | None =>
      let n := fresh (dom (nodes σ)) in
      (Returns n,
       {| ipfsStorageSingleton := ipfsStorageSingleton σ;
          nodes := <[n := {| repo := options_repo; running := true |}]> (nodes σ) |})
  end.

Definition IPFS_stop (n : NodeRef) (response : option Error) (σ : Process)
    : Outcome unit * Process :=
  match response with
  | Some e => (Throws e, σ)
  | None =>
      (Returns (),
       {| ipfsStorageSingleton := ipfsStorageSingleton σ;
          nodes := alter (λ s, {| repo := repo s; running := false |}) n (nodes σ) |})
  end.

Definition createSingleton (repo : option string) (response : option Error) (σ : Process)
    : Outcome IpfsStorage * Process :=
  match ipfsStorageSingleton σ with
  | None =>
      let localRepoName := "sidetree-ipfs" in
      let options_repo := match repo with Some r => r | None => localRepoName end in
      match IPFS_create options_repo response σ with
      | (Returns node, σ') =>
          let this := {| node := node |} in
          (Returns this, {| ipfsStorageSingleton := Some this; nodes := nodes σ' |})
      | (Throws e, σ') => (Throws e, σ')
      | (Hangs, σ') => (Hangs, σ')
      end
  | Some _ => (Throws AlreadyExists, σ)
  end.

Definition getSingleton (σ : Process) : Outcome IpfsStorage * Process :=
  match ipfsStorageSingleton σ with
  | None => (Throws NotInitialized, σ)
  | Some this => (Returns this, σ)
  end.

Definition stop (this : IpfsStorage) (response : option Error) (σ : Process)
    : Outcome unit * Process :=
  IPFS_stop (node this) response σ.

(** Executions: the calls a program makes on the class, one after the other.
    [read] and [write] touch neither the static field nor the table of nodes
    and are left out. *)
Inductive Call : Type :=
  | CreateSingleton (repo : option string) (response : option Error)
  | GetSingleton
  | Stop (this : IpfsStorage) (response : option Error).

Definition step (σ : Process) (c : Call) : Process :=
  match c with
  | CreateSingleton repo response => (createSingleton repo response σ).2
  | GetSingleton => (getSingleton σ).2
  | Stop this response => (stop this response σ).2
  end.

Definition run (calls : list Call) (σ : Process) : Process := foldl step σ calls.

(** Whether a call is a [createSingleton] that returns in the state it is made in. *)
Definition creates (σ : Process) (c : Call) : bool :=
  match c with
  | CreateSingleton repo response =>
      match (createSingleton repo response σ).1 with Returns _ => true | _ => false end
  | _ => false
  end.

(** No call of the execution is a [createSingleton] that returns. *)
Fixpoint none_created (calls : list Call) (σ : Process) : bool :=
  match calls with
  | [] => true
  | c :: calls' => negb (creates σ c) && none_created calls' (step σ c)
  end.

End IpfsStorage.

(** ** The deadline guard *)

Module AsyncTimeout.

(** A pending operation: it settles some milliseconds after the guard starts
    its race, with a value or with an error, or it never settles. *)
Inductive Settlement (T : Type) : Type :=
  | Fulfilled (v : option T)
  | Failed (e : Error).
Arguments Fulfilled {T} v.
Arguments Failed {T} e.

Inductive Operation (T : Type) : Type :=
  | SettlesAfter (ms : Z) (s : Settlement T)
  | NeverSettles.
Arguments SettlesAfter {T} ms s.
Arguments NeverSettles {T}.

Definition Timeout : Error := "Timeout".

(** Modelled from the spec: [AsyncTimeout.timeoutAsyncCall], which
    [IpfsStorage.ts] imports from [../common/AsyncTimeout], is missing. The
    spec (4.1) gives [withDeadline(operation, durationMs)]: a race between
    the operation and a timer of [durationMs]. If the operation completes
    first its result comes back unchanged, in a wrapper; if the timer fires
    first the call fails with [Timeout]; a zero or negative duration is an
    immediate timeout. The spec does not say who wins when both fall on the
    same millisecond; here the timer does. *)
Definition withDeadline {T : Type} (operation : Operation T) (durationMs : Z) : Guarded T :=
  if durationMs <=? 0 then Rejected Timeout
  else
    match operation with
    | SettlesAfter ms s =>
        if ms <? durationMs then
          match s with
          | Fulfilled v => Resolved v
          | Failed e => Rejected e
          end
        else Rejected Timeout
    | NeverSettles => Rejected Timeout
    end.

End AsyncTimeout.

(** ** [DidDocument.getPublicKey] *)

Module DidDocument.

(** [s.endsWith(searchString)], as ECMAScript defines it with no end
    position given: the last [searchString.length] characters of [s] are
    compared with [searchString]. *)
Definition endsWith (s searchString : string) : bool :=
  let len := String.length s in
  let searchLength := String.length searchString in
  if (searchLength <=? len)%nat
  then String.eqb (String.substring (len - searchLength) searchLength s) searchString
  else false.

(** A string in a condition: the empty string is falsy, every other truthy. *)
Definition truthy (s : string) : bool := negb (String.eqb s "").

(** What the lookup is said to look for. [is_suffix t s]: [s] ends with [t]. *)
Definition is_suffix (t s : string) : Prop := ∃ front : string, s = (front ++ t)%string.

Section GetPublicKey.

(** [DidPublicKeyModel] is declared outside the two files; of an entry the
    lookup reads the [id] only. *)
Variable DidPublicKeyModel : Type.
Variable id : DidPublicKeyModel → string.

Record DidDocumentModel : Type := mkDidDocumentModel {
  publicKey : list DidPublicKeyModel
}.

(** The body of the [for] loop from index [i] on, [publicKey] being the
    entries from that index. *)
Fixpoint scan (publicKey : list DidPublicKeyModel) (keyId : string)
    : option DidPublicKeyModel :=
  match publicKey with
  | [] => None
  | entry :: rest =>
      if truthy (id entry) && endsWith (id entry) keyId then Some entry
      else scan rest keyId
  end.

Definition getPublicKey (didDocument : DidDocumentModel) (keyId : string)
    : option DidPublicKeyModel :=
  scan (publicKey didDocument) keyId.

(** An entry the loop stops at. *)
Definition selects (keyId : string) (entry : DidPublicKeyModel) : Prop :=
  id entry ≠ "" ∧ is_suffix keyId (id entry).

(** [found] is the first of [entries], in list order, that [wanted] holds
    of, or nothing when it holds of none. *)
Definition first_where (wanted : DidPublicKeyModel → Prop)
    (entries : list DidPublicKeyModel) (found : option DidPublicKeyModel) : Prop :=
  match found with
  | Some entry =>
      ∃ before after, entries = before ++ entry :: after
                      ∧ wanted entry
                      ∧ Forall (λ e, ¬ wanted e) before
  | None => Forall (λ e, ¬ wanted e) entries
  end.

(** The lookup as the specification words it: the first entry whose [id]
    ends with the target string, or nothing when no [id] does. *)
Definition finds_first_suffix (didDocument : DidDocumentModel) (keyId : string) : Prop :=
  first_where (λ entry, is_suffix keyId (id entry))
    (publicKey didDocument) (getPublicKey didDocument keyId).

End GetPublicKey.

Arguments publicKey {DidPublicKeyModel} _.
Arguments mkDidDocumentModel {DidPublicKeyModel} _.
Arguments scan {DidPublicKeyModel} id publicKey keyId.
Arguments getPublicKey {DidPublicKeyModel} id didDocument keyId.
Arguments selects {DidPublicKeyModel} id keyId entry.
Arguments first_where {DidPublicKeyModel} wanted entries found.
Arguments finds_first_suffix {DidPublicKeyModel} id didDocument keyId.

End DidDocument.

(** ** Notions the properties of [read] are stated with *)

Module Stream.
Import IpfsStorage.

(** The chunks of a list of iterator results, in order, and their total size. *)
Definition chunks_of (results : list IteratorResult) : list Buffer :=
  omap value results.

Definition total (results : list IteratorResult) : Z :=
  foldr (λ chunk n, byteLength chunk + n) 0 (chunks_of results).

(** The guarded pulls [pulls] yield the iterator results [results], one each. *)
Definition yields (pulls : list (Z → Guarded IteratorResult)) (results : list IteratorResult)
    : Prop :=
  Forall2 (λ next result, next timeoutDuration = Resolved (Some result)) pulls results.

(** The stream runs to its end: every pull up to the first result that is
    [done] yields a result. *)
Fixpoint completed (iterator : list (Z → Guarded IteratorResult)) : bool :=
  match iterator with
  | [] => true
  | next :: iterator' =>
      match next timeoutDuration with
      | Resolved (Some result) => if done result then true else completed iterator'
      | _ => false
      end
  end.

(** The chunks the stream delivers, in order of receipt, up to its end. *)
Fixpoint delivered (iterator : list (Z → Guarded IteratorResult)) : list Buffer :=
  match iterator with
  | [] => []
  | next :: iterator' =>
      match next timeoutDuration with
      | Resolved (Some result) =>
          option_list (value result) ++ (if done result then [] else delivered iterator')
      | _ => []
      end
  end.

Definition is_pin (ev : Event) : bool :=
  match ev with PinAddCall _ => true | _ => false end.

(** The pin calls among the remote calls of a computation. *)
Definition pins {A : Type} (a : Async A) : list Event :=
  List.filter is_pin (trace a).

(** The computation got as far as opening the stream of [hash]. *)
Definition opens_stream {A : Type} (a : Async A) (hash : string) : bool :=
  bool_decide (CatCall hash ∈ trace a).

(** The computation returns a result whose code is [Success]. *)
Definition succeeds (a : Async FetchResult) : bool :=
  match outcome a with
  | Returns r => bool_decide (code r = Success)
  | _ => false
  end.

(** What [read] comes to once the probe has let it through and [fetch], its
    call of [fetchContent], has returned [r]: lines 79 to 84. *)
Definition after_fetch (node : IPFS) (hash : string) (fetch : Async FetchResult)
    (r : FetchResult) : Async FetchResult :=
  if decide (code r = Success) then
    mkAsync (StatCall hash :: trace fetch ++ [PinAddCall hash])
      match pin_add node hash with
      | Returns _ => Returns r
      | Throws e => Throws e
      | Hangs => Hangs
      end
  else mkAsync (StatCall hash :: trace fetch) (Returns r).

End Stream.

(** ** Sample stores and documents *)

Module Examples.
Import IpfsStorage AsyncTimeout.

(** A remote operation that answers [v] after [ms] milliseconds, behind the
    deadline guard. *)
Definition answers {T : Type} (ms : Z) (v : T) : Z → Guarded T :=
  withDeadline (SettlesAfter ms (Fulfilled (Some v))).

Definition abc : Buffer := [Byte.x61; Byte.x62; Byte.x63].

(** A chunk of [n] zero bytes. *)
Definition zeros (n : nat) : Buffer := repeat Byte.x00 n.

(** A store with four objects, whose pin call does [pin]:
    - [QmAbc], the three bytes of [abc], streamed as two chunks;
    - [QmBig], declared to hold 120 bytes;
    - [QmGrown], declared to hold 100 bytes and streaming chunks of 60;
    - [QmDir], a directory: [cat] throws.
    [stat] of anything else never answers. *)
Definition store (pin : Outcome unit) : IPFS :=
  {| object_stat := λ hash,
       if String.eqb hash "QmAbc" then answers 20 {| DataSize := Some 3 |}
       else if String.eqb hash "QmBig" then answers 20 {| DataSize := Some 120 |}
       else if String.eqb hash "QmGrown" then answers 20 {| DataSize := Some 100 |}
       else if String.eqb hash "QmDir" then answers 20 {| DataSize := Some 0 |}
       else withDeadline NeverSettles;
     cat := λ hash,
       if String.eqb hash "QmAbc" then
         inr [answers 5 {| value := Some [Byte.x61; Byte.x62]; done := false |};
              answers 5 {| value := Some [Byte.x63]; done := false |}]
       else if String.eqb hash "QmGrown" then
         inr [answers 5 {| value := Some (zeros 60); done := false |};
              answers 5 {| value := Some (zeros 60); done := false |};
              answers 5 {| value := Some (zeros 60); done := false |}]
       else inl "this dag node is a directory"%string;
     pin_add := λ _, pin |}.

(** A key entry with an [id] and a key. *)
Record Key : Type := mkKey { id : string; publicKeyHex : string }.

Definition unnamed : Key := {| id := ""; publicKeyHex := "02f4" |}.

End Examples.

(** ** [IpfsStorage.write] *)

Module IpfsStorageWrite.

(** An entry the iterator of [node.add] yields; [write] reads its [cid], as
    [cid.toString()] prints it. *)
Record AddedFile : Type := mkAddedFile { cid : string }.

(** One step of the iterator of [node.add]. *)
Record AddResult : Type := mkAddResult {
  value : option AddedFile;
  done : bool
}.

(** Reading [.value] of [undefined], or [.cid] of [undefined]. *)
Definition TypeError : Error := "TypeError: Cannot read property of undefined".

Section Write.

(** [await this.node.add(content).next()]: the first pull on the iterator of
    [add], which no deadline guards. *)
Variable add_next : Buffer → Outcome (option AddResult).

Definition write (content : Buffer) : Outcome string :=
  match add_next content with
  | Returns (Some file) =>
      match value file with
      | Some added => Returns (cid added)
      | None => Throws TypeError
      end
  | Returns None => Throws TypeError
  | Throws e => Throws e
  | Hangs => Hangs
  end.

End Write.

End IpfsStorageWrite.

(** ** More sample stores *)

Module MoreExamples.
Import IpfsStorage AsyncTimeout Examples.

(** A store whose stream of [QmCut] gives one chunk and then, at the next
    pull, nothing at all; everything else as in [store]. *)
Definition cut_store : IPFS :=
  {| object_stat := λ hash,
       if String.eqb hash "QmCut" then answers 20 {| DataSize := Some 3 |}
       else object_stat (store (Returns ())) hash;
     cat := λ hash,
       if String.eqb hash "QmCut" then
         inr [answers 5 {| value := Some [Byte.x61]; done := false |};
              withDeadline (SettlesAfter 5 (Fulfilled None));
              answers 5 {| value := Some [Byte.x62]; done := true |}]
       else cat (store (Returns ())) hash;
     pin_add := λ _, Returns () |}.

(** A store whose stream of [QmSlow] gives one chunk and then stalls: the
    second pull never answers. *)
Definition slow_store : IPFS :=
  {| object_stat := λ _, answers 20 {| DataSize := Some 3 |};
     cat := λ _,
       inr [answers 5 {| value := Some [Byte.x61]; done := false |};
            withDeadline NeverSettles];
     pin_add := λ _, Returns () |}.

(** [add] of a store that files every content under [QmAbc]. *)
Definition add_abc (content : Buffer) : Outcome (option IpfsStorageWrite.AddResult) :=
  Returns (Some {| IpfsStorageWrite.value := Some {| IpfsStorageWrite.cid := "QmAbc" |};
                   IpfsStorageWrite.done := false |}).

(** Three keys of a document. *)
Definition key1 : Key := {| id := "did:sidetree:abc#key1"; publicKeyHex := "02f4" |}.
Definition key2 : Key := {| id := "did:sidetree:abc#key2"; publicKeyHex := "03a1" |}.
Definition bare1 : Key := {| id := "key1"; publicKeyHex := "02b7" |}.

End MoreExamples.

(** ** What the calls keep true of a process *)

Module ProcessInvariant.
Import IpfsStorage.


End ProcessInvariant.

(** ** Equations of the monad *)

Lemma issue_then {A : Type} (ev : Event) (m : Async A) :
  (issue ev ;; m) = mkAsync (ev :: trace m) (outcome m).
Proof. reflexivity. Qed.

Lemma bind_returns {A B : Type} (m : Async A) (k : A → Async B) (a : A) :
  outcome m = Returns a →
  (m ≫= k) = mkAsync (trace m ++ trace (k a)) (outcome (k a)).
Proof. intros H. unfold mbind, Async_bind. now rewrite H. Qed.

Module ProbeFacts.
Import IpfsStorage.

Section Stage1.

Variable node : IPFS.
Variables (hash : string) (maxSizeInBytes : Z).

(** C4. When the guarded [stat] throws (whatever the error, a timeout
    included), or yields no metadata, or yields metadata without a
    [DataSize], [read] returns [{ code: NotFound }]; the probe is the only
    remote call it has made. *)
Theorem read_probe_failure_not_found :
  (∃ error, object_stat node hash timeoutDuration = Rejected error)
  ∨ object_stat node hash timeoutDuration = Resolved None
  ∨ (∃ contentMetadata,
       object_stat node hash timeoutDuration = Resolved (Some contentMetadata)
       ∧ DataSize contentMetadata = None) →
  read node hash maxSizeInBytes = mkAsync [StatCall hash] (Returns (code_only NotFound)).
Proof.
  intros [[error H] | [H | (md & H & Hsize)]];
    unfold read; rewrite issue_then, H; try rewrite Hsize; reflexivity.
Qed.

(** C2. When the guarded [stat] yields metadata whose [DataSize] is strictly
    greater than [maxSizeInBytes], [read] returns [{ code: MaxSizeExceeded }]
    and the probe is the only remote call it has made: [cat] is not called
    and no chunk is pulled. *)
Theorem read_declared_size_exceeded (contentMetadata : Stat) (dataSize : Z) :
  object_stat node hash timeoutDuration = Resolved (Some contentMetadata) →
  DataSize contentMetadata = Some dataSize →
  maxSizeInBytes < dataSize →
  read node hash maxSizeInBytes = mkAsync [StatCall hash] (Returns (code_only MaxSizeExceeded))
  ∧ (∀ h, CatCall h ∉ trace (read node hash maxSizeInBytes))
  ∧ NextCall ∉ trace (read node hash maxSizeInBytes).
Proof.
  intros H Hsize Hgt.
  assert (Hread : read node hash maxSizeInBytes
                  = mkAsync [StatCall hash] (Returns (code_only MaxSizeExceeded))).
  { unfold read. rewrite issue_then, H, Hsize.
    replace (dataSize >? maxSizeInBytes) with true by (symmetry; apply Z.gtb_lt; lia).
    reflexivity. }
  rewrite Hread. split; [reflexivity |]. cbn.
  split; [intros h |]; intros Hin; apply list_elem_of_singleton in Hin; discriminate.
Qed.

End Stage1.

End ProbeFacts.

(** ** The loop of [fetchContent] *)

Module LoopFacts.
Import IpfsStorage Stream.

Lemma byteLength_nonneg (chunk : Buffer) : 0 ≤ byteLength chunk.
Proof. unfold byteLength. lia. Qed.

Lemma total_nonneg (results : list IteratorResult) : 0 ≤ total results.
Proof.
  unfold total. induction (chunks_of results) as [| chunk chunks IH]; cbn; [lia |].
  pose proof (byteLength_nonneg chunk). lia.
Qed.

Lemma total_cons (result : IteratorResult) (results : list IteratorResult) :
  total (result :: results)
  = match value result with Some chunk => byteLength chunk | None => 0 end + total results.
Proof. unfold total, chunks_of. cbn. destruct (value result); reflexivity. Qed.

Lemma chunks_of_cons (result : IteratorResult) (results : list IteratorResult) :
  chunks_of (result :: results) = option_list (value result) ++ chunks_of results.
Proof. unfold chunks_of. cbn. destruct (value result); reflexivity. Qed.

(** The loop issues pulls and nothing else. *)
Lemma doWhile_trace (iterator : list (Z → Guarded IteratorResult)) (maxSizeInBytes : Z)
    (l : Locals) :
  ∃ n : nat, trace (doWhile iterator maxSizeInBytes l) = repeat NextCall n.
Proof.
  revert l. induction iterator as [| next iterator' IH]; intros l; cbn [doWhile];
    unfold iteration; rewrite issue_then; cbn [trace].
  - exists 1%nat. reflexivity.
  - destruct (next timeoutDuration) as [e | [result |]]; cbn;
      [exists 1%nat; reflexivity | | exists 1%nat; reflexivity].
    destruct (value result) as [chunk |]; [destruct (_ <? _) |];
      try destruct (done result);
      try (exists 1%nat; reflexivity);
      match goal with
      | |- context [doWhile iterator' maxSizeInBytes ?l'] =>
          destruct (IH l') as [n Hn]; exists (S n); cbn; now rewrite Hn
      end.
Qed.

(** The loop never waits for ever: every pull is guarded. *)
Lemma doWhile_settles (iterator : list (Z → Guarded IteratorResult)) (maxSizeInBytes : Z)
    (l : Locals) :
  outcome (doWhile iterator maxSizeInBytes l) ≠ Hangs.
Proof.
  revert l. induction iterator as [| next iterator' IH]; intros l; cbn [doWhile];
    unfold iteration; rewrite issue_then; cbn [outcome].
  - discriminate.
  - destruct (next timeoutDuration) as [e | [result |]]; cbn; try discriminate.
    destruct (value result) as [chunk |]; [destruct (_ <? _) |];
      try destruct (done result); cbn; try discriminate; apply IH.
Qed.

(** What the loop hands back. When it returns from inside ([Some r]), [r] is a
    bare [{ code }] other than [Success]. When it runs out ([None]), the
    stream ran to its end and the buffer holds, after what it held before, the
    chunks the stream delivered, in order. *)
Lemma doWhile_returns (iterator : list (Z → Guarded IteratorResult)) (maxSizeInBytes : Z)
    (l l' : Locals) (returned : option FetchResult) :
  outcome (doWhile iterator maxSizeInBytes l) = Returns (returned, l') →
  match returned with
  | Some r => r = code_only NotFound ∨ r = code_only MaxSizeExceeded
  | None => completed iterator = true
            ∧ bufferChunks l' = bufferChunks l ++ delivered iterator
  end.
Proof.
  revert l. induction iterator as [| next iterator' IH]; intros l; cbn [doWhile];
    unfold iteration; rewrite issue_then; cbn [outcome].
  - cbn. intros [= <- <-]. cbn. now rewrite app_nil_r.
  - cbn [completed delivered].
    destruct (next timeoutDuration) as [e | [result |]]; cbn; [discriminate | |].
    2: { intros [= <- <-]. now left. }
    destruct (value result) as [chunk |]; [destruct (_ <? _) |];
      [intros [= <- <-]; now right | |];
      (destruct (done result);
       [ intros [= <- <-]; cbn; rewrite ?app_nil_r; now split
       | intros H; apply IH in H; destruct returned; [exact H |];
         destruct H as [Hc Hb]; split; [exact Hc |];
         rewrite Hb; cbn; now rewrite <- ?app_assoc ]).
Qed.

Local Ltac same_size :=
  match goal with
  | |- mkAsync _ (Returns (_, mkLocals _ ?a)) = mkAsync _ (Returns (_, mkLocals _ ?b)) =>
      replace a with b by lia; reflexivity
  end.

(** The running total crosses the limit at the pull after [pulls]: the loop
    returns at once with the locals as they then are. *)
Lemma doWhile_crossing (pulls : list (Z → Guarded IteratorResult))
    (results : list IteratorResult) (crossing : Z → Guarded IteratorResult)
    (chunk : Buffer) (d : bool) (rest : list (Z → Guarded IteratorResult))
    (maxSizeInBytes : Z) (l : Locals) :
  yields pulls results →
  Forall (λ r, done r = false) results →
  currentContentSize l + total results ≤ maxSizeInBytes →
  crossing timeoutDuration = Resolved (Some {| value := Some chunk; done := d |}) →
  maxSizeInBytes < currentContentSize l + total results + byteLength chunk →
  doWhile (pulls ++ crossing :: rest) maxSizeInBytes l
  = mkAsync (repeat NextCall (S (length pulls)))
      (Returns (Some (code_only MaxSizeExceeded),
                {| bufferChunks := bufferChunks l ++ chunks_of results;
                   currentContentSize := currentContentSize l + total results + byteLength chunk |})).
Proof.
  intros Hy. revert l. induction Hy as [| next result pulls results Hnext Hy IH];
    intros l Hdone Hfit Hcross Hover.
  - cbn [app doWhile]. unfold iteration. rewrite issue_then, Hcross. cbn.
    unfold total in *; cbn in *. rewrite Z.add_0_r in Hover.
    replace (_ <? _) with true by (symmetry; apply Z.ltb_lt; lia).
    cbn. rewrite app_nil_r, Z.add_0_r. reflexivity.
  - apply Forall_cons in Hdone as [Hd Hdone].
    rewrite total_cons in Hfit, Hover. rewrite total_cons, chunks_of_cons.
    pose proof (total_nonneg results) as Hnn.
    cbn [app doWhile length]. unfold iteration at 1. rewrite issue_then, Hnext, Hd.
    destruct (value result) as [c |]; cbn -[doWhile repeat].
    + replace (_ <? _) with false by (symmetry; apply Z.ltb_ge; lia).
      rewrite IH; cbn; try (assumption || lia).
      rewrite <- app_assoc. cbn. same_size.
    + rewrite IH; cbn; try (assumption || lia). same_size.
Qed.

End LoopFacts.

(** ** [fetchContent] *)

Module FetchFacts.
Import IpfsStorage Stream LoopFacts.

Section Fetch.

Variable node : IPFS.
Variables (hash : string) (maxSizeInBytes : Z).

(** [fetchContent] by cases: the [catch] turns every error of [cat] and of
    a guarded pull into [{ code: NotAFile }]. *)
Lemma fetchContent_cases :
  fetchContent node hash maxSizeInBytes =
  match cat node hash with
  | inl _ => mkAsync [CatCall hash] (Returns (code_only NotAFile))
  | inr iterator =>
      let loop := doWhile iterator maxSizeInBytes fresh_locals in
      mkAsync (CatCall hash :: trace loop)
        (Returns match outcome loop with
                 | Returns (Some r, _) => r
                 | Returns (None, l) =>
                     {| code := Success; content := Some (Buffer_concat (bufferChunks l)) |}
                 | _ => code_only NotAFile
                 end)
  end.
Proof.
  unfold fetchContent. rewrite issue_then.
  destruct (cat node hash) as [e | iterator]; [reflexivity |].
  pose proof (doWhile_settles iterator maxSizeInBytes fresh_locals) as Hsettles.
  cbn zeta.
  destruct (doWhile iterator maxSizeInBytes fresh_locals) as [tr o] eqn:Hloop.
  unfold mbind, Async_bind, try_catch. cbn in *.
  destruct o as [[[r |] l] | e |]; cbn; rewrite ?app_nil_r; try reflexivity.
  now destruct Hsettles.
Qed.

Lemma fetchContent_returns :
  ∃ r, outcome (fetchContent node hash maxSizeInBytes) = Returns r.
Proof.
  rewrite fetchContent_cases. destruct (cat node hash); cbn; eauto.
Qed.

Lemma fetchContent_trace :
  ∃ n : nat, trace (fetchContent node hash maxSizeInBytes) = CatCall hash :: repeat NextCall n.
Proof.
  rewrite fetchContent_cases. destruct (cat node hash) as [e | iterator]; cbn.
  - now exists 0%nat.
  - destruct (doWhile_trace iterator maxSizeInBytes fresh_locals) as [n Hn].
    exists n. now rewrite Hn.
Qed.

(** The result of [fetchContent]: no content unless the code is [Success],
    and with [Success] the whole stream, concatenated. *)
Lemma fetchContent_result (r : FetchResult) :
  outcome (fetchContent node hash maxSizeInBytes) = Returns r →
  (code r ≠ Success → content r = None)
  ∧ (code r = Success →
     ∃ iterator, cat node hash = inr iterator
                 ∧ completed iterator = true
                 ∧ content r = Some (Buffer_concat (delivered iterator))).
Proof.
  rewrite fetchContent_cases. destruct (cat node hash) as [e | iterator]; cbn.
  - intros [= <-]. split; [reflexivity | discriminate].
  - destruct (outcome (doWhile iterator maxSizeInBytes fresh_locals))
      as [[returned l] | e |] eqn:Hloop.
    + apply doWhile_returns in Hloop. destruct returned as [r' |].
      * intros [= <-]. destruct Hloop as [-> | ->]; (split; [reflexivity | discriminate]).
      * intros [= <-]. destruct Hloop as [Hc Hb]. split; [now intros [] |].
        intros _. exists iterator. cbn. rewrite Hb. auto.
    + intros [= <-]. split; [reflexivity | discriminate].
    + intros [= <-]. split; [reflexivity | discriminate].
Qed.

End Fetch.

End FetchFacts.

(** ** [read] *)

Module ReadFacts.
Import IpfsStorage Stream LoopFacts FetchFacts.

Section Read.

Variable node : IPFS.
Variables (hash : string) (maxSizeInBytes : Z).

(** [read] by cases: it stops after the probe with a bare [NotFound] or
    [MaxSizeExceeded], or it goes on to [fetchContent]. *)
Lemma read_cases :
  (∃ c, (c = NotFound ∨ c = MaxSizeExceeded)
        ∧ read node hash maxSizeInBytes = mkAsync [StatCall hash] (Returns (code_only c)))
  ∨ (∃ r, outcome (fetchContent node hash maxSizeInBytes) = Returns r
          ∧ read node hash maxSizeInBytes
            = after_fetch node hash (fetchContent node hash maxSizeInBytes) r).
Proof.
  unfold read. rewrite issue_then.
  destruct (object_stat node hash timeoutDuration) as [e | [[[dataSize |]] |]]; cbn;
    try (left; exists NotFound; split; [now left | reflexivity]).
  destruct (dataSize >? maxSizeInBytes);
    [left; exists MaxSizeExceeded; split; [now right | reflexivity] |].
  right. destruct (fetchContent_returns node hash maxSizeInBytes) as [r Hr].
  exists r. split; [exact Hr |].
  rewrite (bind_returns _ _ r Hr). unfold after_fetch. cbn.
  destruct (decide (code r = Success)); cbn.
  - destruct (pin_add node hash); cbn; now rewrite ?app_nil_r.
  - now rewrite app_nil_r.
Qed.

(** When the probe lets the read through, [read] goes on to [fetchContent]. *)
Lemma read_through (contentMetadata : Stat) (dataSize : Z) :
  object_stat node hash timeoutDuration = Resolved (Some contentMetadata) →
  DataSize contentMetadata = Some dataSize →
  dataSize ≤ maxSizeInBytes →
  ∀ r, outcome (fetchContent node hash maxSizeInBytes) = Returns r →
       read node hash maxSizeInBytes = after_fetch node hash (fetchContent node hash maxSizeInBytes) r.
Proof.
  intros Hstat Hsize Hle r Hr. unfold read. rewrite issue_then, Hstat, Hsize.
  replace (dataSize >? maxSizeInBytes) with false
    by (symmetry; rewrite Z.gtb_ltb; apply Z.ltb_ge; lia).
  rewrite (bind_returns _ _ r Hr). unfold after_fetch. cbn.
  destruct (decide (code r = Success)); cbn.
  - destruct (pin_add node hash); cbn; now rewrite ?app_nil_r.
  - now rewrite app_nil_r.
Qed.

Lemma pins_of_pulls (n : nat) : List.filter is_pin (repeat NextCall n) = [].
Proof. induction n as [| n IH]; [reflexivity | exact IH]. Qed.

Lemma pins_after_fetch (r : FetchResult) :
  pins (after_fetch node hash (fetchContent node hash maxSizeInBytes) r)
  = if decide (code r = Success) then [PinAddCall hash] else [].
Proof.
  unfold after_fetch, pins.
  destruct (fetchContent_trace node hash maxSizeInBytes) as [n ->].
  destruct (decide (code r = Success)); cbn.
  - now rewrite List.filter_app, pins_of_pulls.
  - apply pins_of_pulls.
Qed.

(** C6. The pin calls of a [read] are: one call, [pin.add(hash)], when the
    read got as far as the streaming fetch and the fetch produced
    [Success]; none at all otherwise. *)
Theorem read_pins_iff_fetch_success :
  pins (read node hash maxSizeInBytes)
  = if opens_stream (read node hash maxSizeInBytes) hash
       && succeeds (fetchContent node hash maxSizeInBytes)
    then [PinAddCall hash] else [].
Proof.
  destruct read_cases as [(c & _ & ->) | (r & Hr & ->)].
  - unfold opens_stream. rewrite bool_decide_eq_false_2; [reflexivity |].
    cbn. intros Hin. apply list_elem_of_singleton in Hin. discriminate.
  - rewrite pins_after_fetch. unfold succeeds. rewrite Hr.
    unfold opens_stream. rewrite bool_decide_eq_true_2.
    + cbn. now destruct (decide (code r = Success)) as [H | H];
        [rewrite bool_decide_eq_true_2 | rewrite bool_decide_eq_false_2].
    + unfold after_fetch.
      destruct (fetchContent_trace node hash maxSizeInBytes) as [n ->].
      destruct (decide (code r = Success)); cbn; apply list_elem_of_further, list_elem_of_here.
Qed.

(** C5. A [FetchResult] that [read] returns has no content unless its code
    is [Success]; with [Success] the stream ran to its end and the content
    is the concatenation, in order of receipt, of the chunks it delivered. *)
Theorem read_content (r : FetchResult) :
  outcome (read node hash maxSizeInBytes) = Returns r →
  (code r ≠ Success → content r = None)
  ∧ (code r = Success →
     ∃ iterator, cat node hash = inr iterator
                 ∧ completed iterator = true
                 ∧ content r = Some (Buffer_concat (delivered iterator))).
Proof.
  destruct read_cases as [(c & Hc & ->) | (r' & Hr' & ->)].
  - intros [= <-]. cbn. split; [reflexivity |].
    intros ->. now destruct Hc.
  - unfold after_fetch. destruct (decide (code r' = Success)); cbn.
    + destruct (pin_add node hash); [| discriminate | discriminate].
      intros [= <-]. exact (fetchContent_result node hash maxSizeInBytes r' Hr').
    + intros [= <-]. exact (fetchContent_result node hash maxSizeInBytes r' Hr').
Qed.

(** A [read] throws only what its pin call throws, after a fetch that
    produced [Success]; nothing the probe or the stream throws gets out. *)
Lemma read_throws_only_pin (e : Error) :
  outcome (read node hash maxSizeInBytes) = Throws e →
  pin_add node hash = Throws e ∧ succeeds (fetchContent node hash maxSizeInBytes) = true.
Proof.
  destruct read_cases as [(c & Hc & ->) | (r' & Hr' & ->)]; [discriminate |].
  unfold after_fetch, succeeds. rewrite Hr'.
  destruct (decide (code r' = Success)) as [Hs | Hs]; cbn; [| discriminate].
  destruct (pin_add node hash); [discriminate | | discriminate].
  intros [= ->]. split; [reflexivity |]. now apply bool_decide_eq_true_2.
Qed.

(** C3. The probe lets the read through; the pulls [pulls] yield results
    that are not [done] and whose chunks fit within the limit; with the
    chunk of the next pull the running total is over the limit. Then the
    loop returns [{ code: MaxSizeExceeded }] at that pull, holding the
    earlier chunks only; [read] returns this result with no content, having
    pulled no further chunk and made no pin call. *)
Theorem read_streamed_size_exceeded (contentMetadata : Stat) (dataSize : Z)
    (pulls : list (Z → Guarded IteratorResult)) (results : list IteratorResult)
    (crossing : Z → Guarded IteratorResult) (chunk : Buffer) (d : bool)
    (rest : list (Z → Guarded IteratorResult)) :
  object_stat node hash timeoutDuration = Resolved (Some contentMetadata) →
  DataSize contentMetadata = Some dataSize →
  dataSize ≤ maxSizeInBytes →
  cat node hash = inr (pulls ++ crossing :: rest) →
  yields pulls results →
  Forall (λ r, done r = false) results →
  total results ≤ maxSizeInBytes →
  crossing timeoutDuration = Resolved (Some {| value := Some chunk; done := d |}) →
  maxSizeInBytes < total results + byteLength chunk →
  doWhile (pulls ++ crossing :: rest) maxSizeInBytes fresh_locals
  = mkAsync (repeat NextCall (S (length pulls)))
      (Returns (Some (code_only MaxSizeExceeded),
                {| bufferChunks := chunks_of results;
                   currentContentSize := total results + byteLength chunk |}))
  ∧ read node hash maxSizeInBytes
    = mkAsync (StatCall hash :: CatCall hash :: repeat NextCall (S (length pulls)))
        (Returns (code_only MaxSizeExceeded))
  ∧ pins (read node hash maxSizeInBytes) = [].
Proof.
  intros Hstat Hsize Hle Hcat Hy Hdone Hfit Hcross Hover.
  pose proof (doWhile_crossing pulls results crossing chunk d rest maxSizeInBytes
                fresh_locals Hy Hdone) as Hloop.
  cbn in Hloop. specialize (Hloop Hfit Hcross Hover).
  assert (Hfetch : fetchContent node hash maxSizeInBytes
                   = mkAsync (CatCall hash :: repeat NextCall (S (length pulls)))
                       (Returns (code_only MaxSizeExceeded))).
  { rewrite fetchContent_cases, Hcat. cbn zeta. now rewrite Hloop. }
  assert (Hread : read node hash maxSizeInBytes
                  = mkAsync (StatCall hash :: CatCall hash :: repeat NextCall (S (length pulls)))
                      (Returns (code_only MaxSizeExceeded))).
  { rewrite (read_through _ _ Hstat Hsize Hle (code_only MaxSizeExceeded))
      by now rewrite Hfetch.
    now rewrite Hfetch. }
  split; [exact Hloop |]. split; [exact Hread |].
  rewrite Hread. unfold pins. cbn [trace List.filter is_pin].
  apply (pins_of_pulls (S (length pulls))).
Qed.

End Read.

End ReadFacts.

(** A pin call that fails makes the whole [read] fail, though the fetch has
    produced [Success]. *)
Module PinFailure.
Import IpfsStorage Stream Examples.

(** C1. With [abc] stored under [QmAbc] and a pin call that throws, the fetch
    stage of [read("QmAbc", 10)] produces [Success] with the content, and
    [read] then throws the error of the pin call instead of returning it. *)
Theorem read_pin_failure_escapes :
  fetchContent (store (Throws "pin failed")) "QmAbc" 10
  = mkAsync [CatCall "QmAbc"; NextCall; NextCall; NextCall]
      (Returns {| code := Success; content := Some abc |})
  ∧ read (store (Throws "pin failed")) "QmAbc" 10
    = mkAsync [StatCall "QmAbc"; CatCall "QmAbc"; NextCall; NextCall; NextCall;
               PinAddCall "QmAbc"]
        (Throws "pin failed").
Proof. split; reflexivity. Qed.

End PinFailure.

(** ** The properties of [read] on the sample store *)

Module ReadWitnesses.
Import IpfsStorage Stream Examples AsyncTimeout.
Import ProbeFacts ReadFacts.

(** [stat] of an unknown identifier times out; [read] returns [NotFound]. *)
Lemma read_probe_failure_not_found_witness :
  (∃ error, object_stat (store (Returns ())) "QmGone" timeoutDuration = Rejected error)
  ∧ read (store (Returns ())) "QmGone" 100
    = mkAsync [StatCall "QmGone"] (Returns (code_only NotFound)).
Proof.
  split.
  - exists Timeout. reflexivity.
  - apply (read_probe_failure_not_found (store (Returns ())) "QmGone" 100).
    left. exists Timeout. reflexivity.
Defined.

(** [QmBig] declares 120 bytes; with a limit of 100 the stream is not opened. *)
Lemma read_declared_size_exceeded_witness :
  object_stat (store (Returns ())) "QmBig" timeoutDuration
  = Resolved (Some {| DataSize := Some 120 |})
  ∧ 100 < 120
  ∧ read (store (Returns ())) "QmBig" 100
    = mkAsync [StatCall "QmBig"] (Returns (code_only MaxSizeExceeded))
  ∧ (∀ h, CatCall h ∉ trace (read (store (Returns ())) "QmBig" 100))
  ∧ NextCall ∉ trace (read (store (Returns ())) "QmBig" 100).
Proof.
  split; [reflexivity |]. split; [lia |].
  exact (read_declared_size_exceeded (store (Returns ())) "QmBig" 100
           {| DataSize := Some 120 |} 120 eq_refl eq_refl eq_refl).
Defined.

(** [QmGrown] declares 100 bytes and streams chunks of 60: with a limit of 100
    the second chunk crosses it. Two pulls, no pin call, and the buffer holds
    the first chunk only. *)
Lemma read_streamed_size_exceeded_witness :
  let first := {| value := Some (zeros 60); done := false |} in
  yields [answers 5 first] [first]
  ∧ total [first] ≤ 100 < total [first] + byteLength (zeros 60)
  ∧ doWhile [answers 5 first; answers 5 first; answers 5 first] 100 fresh_locals
    = mkAsync [NextCall; NextCall]
        (Returns (Some (code_only MaxSizeExceeded),
                  {| bufferChunks := [zeros 60]; currentContentSize := 120 |}))
  ∧ read (store (Returns ())) "QmGrown" 100
    = mkAsync [StatCall "QmGrown"; CatCall "QmGrown"; NextCall; NextCall]
        (Returns (code_only MaxSizeExceeded))
  ∧ pins (read (store (Returns ())) "QmGrown" 100) = [].
Proof.
  intros first.
  assert (Hy : yields [answers 5 first] [first])
    by (constructor; [reflexivity | constructor]).
  assert (Hfit : total [first] ≤ 100) by (vm_compute; discriminate).
  assert (Hover : 100 < total [first] + byteLength (zeros 60)) by (vm_compute; reflexivity).
  split; [exact Hy |]. split; [split; [exact Hfit | exact Hover] |].
  apply (read_streamed_size_exceeded (store (Returns ())) "QmGrown" 100
           {| DataSize := Some 100 |} 100
           [answers 5 first] [first] (answers 5 first) (zeros 60) false
           [answers 5 first]).
  - reflexivity.
  - reflexivity.
  - lia.
  - reflexivity.
  - exact Hy.
  - constructor; [reflexivity | constructor].
  - exact Hfit.
  - reflexivity.
  - exact Hover.
Defined.

(** [QmAbc] read within a limit of 10: [Success], and the content is [abc],
    the two chunks of the stream put together. *)
Lemma read_content_witness :
  let r := {| code := Success; content := Some abc |} in
  outcome (read (store (Returns ())) "QmAbc" 10) = Returns r
  ∧ (code r ≠ Success → content r = None)
  ∧ (code r = Success →
     ∃ iterator, cat (store (Returns ())) "QmAbc" = inr iterator
                 ∧ completed iterator = true
                 ∧ content r = Some (Buffer_concat (delivered iterator))).
Proof.
  intros r. split; [reflexivity |].
  apply (read_content (store (Returns ())) "QmAbc" 10 r). reflexivity.
Defined.

End ReadWitnesses.

(** ** The singleton *)

Module SingletonFacts.
Import IpfsStorage.

Lemma createSingleton_live (σ : Process) (this : IpfsStorage)
    (repo : option string) (response : option Error) :
  ipfsStorageSingleton σ = Some this →
  createSingleton repo response σ = (Throws AlreadyExists, σ).
Proof. intros H. unfold createSingleton. now rewrite H. Qed.

Lemma getSingleton_state (σ : Process) : (getSingleton σ).2 = σ.
Proof. unfold getSingleton. now destruct (ipfsStorageSingleton σ). Qed.

Lemma stop_singleton (this : IpfsStorage) (response : option Error) (σ : Process) :
  ipfsStorageSingleton (stop this response σ).2 = ipfsStorageSingleton σ.
Proof. unfold stop, IPFS_stop. now destruct response. Qed.

(** A [createSingleton] that returns has filled the static field with the
    instance it returns, over a running node. *)
Lemma createSingleton_returns (σ : Process) (this : IpfsStorage)
    (repo : option string) (response : option Error) :
  (createSingleton repo response σ).1 = Returns this →
  ipfsStorageSingleton (createSingleton repo response σ).2 = Some this
  ∧ running <$> nodes (createSingleton repo response σ).2 !! node this = Some true.
Proof.
  unfold createSingleton, IPFS_create.
  destruct (ipfsStorageSingleton σ); [discriminate |].
  destruct response; [discriminate |]. cbn. intros [= <-]. cbn.
  split; [reflexivity |]. now rewrite lookup_insert_eq.
Qed.

(** No call empties the static field once it is filled. *)
Lemma step_keeps_singleton (σ : Process) (this : IpfsStorage) (c : Call) :
  ipfsStorageSingleton σ = Some this → ipfsStorageSingleton (step σ c) = Some this.
Proof.
  intros H. destruct c as [repo response | | that response]; cbn [step].
  - now rewrite (createSingleton_live σ this).
  - now rewrite getSingleton_state.
  - now rewrite stop_singleton.
Qed.

Lemma run_keeps_singleton (calls : list Call) (σ : Process) (this : IpfsStorage) :
  ipfsStorageSingleton σ = Some this → ipfsStorageSingleton (run calls σ) = Some this.
Proof.
  revert σ. induction calls as [| c calls IH]; intros σ H; [exact H |].
  apply IH, step_keeps_singleton, H.
Qed.

(** No call forgets a node, and none restarts a stopped one. *)
Lemma step_keeps_node (σ : Process) (n : NodeRef) (c : Call) (b : bool) :
  running <$> nodes σ !! n = Some b →
  ∃ b', running <$> nodes (step σ c) !! n = Some b' ∧ (b = false → b' = false).
Proof.
  intros H. destruct c as [repo response | | that response]; cbn [step].
  - unfold createSingleton, IPFS_create.
    destruct (ipfsStorageSingleton σ); [now exists b |].
    destruct response; [now exists b |]. cbn.
    exists b. split; [| auto]. rewrite lookup_insert_ne; [exact H |].
    intros Heq. pose proof (is_fresh (dom (nodes σ))) as Hfresh.
    rewrite Heq in Hfresh. apply Hfresh, elem_of_dom.
    destruct (nodes σ !! n); [eauto | discriminate].
  - rewrite getSingleton_state. now exists b.
  - unfold stop, IPFS_stop. destruct response; [now exists b |]. cbn.
    destruct (decide (node that = n)) as [-> | Hne].
    + exists false. split; [| auto]. rewrite lookup_alter_eq.
      destruct (nodes σ !! n); [reflexivity | discriminate].
    + exists b. split; [| auto]. now rewrite lookup_alter_ne.
Qed.

Lemma run_keeps_node (calls : list Call) (σ : Process) (n : NodeRef) (b : bool) :
  running <$> nodes σ !! n = Some b →
  ∃ b', running <$> nodes (run calls σ) !! n = Some b' ∧ (b = false → b' = false).
Proof.
  revert σ b. induction calls as [| c calls IH]; intros σ b H; [now exists b |].
  destruct (step_keeps_node σ n c b H) as (b1 & H1 & Hb1).
  destruct (IH (step σ c) b1 H1) as (b2 & H2 & Hb2).
  exists b2. split; [exact H2 | auto].
Qed.

(** A successful [stop] leaves the node stopped. *)
Lemma stop_stops (σ : Process) (this : IpfsStorage) (b : bool) :
  running <$> nodes σ !! node this = Some b →
  running <$> nodes (stop this None σ).2 !! node this = Some false.
Proof.
  intros H. unfold stop, IPFS_stop. cbn. rewrite lookup_alter_eq.
  destruct (nodes σ !! node this); [reflexivity | discriminate].
Qed.

(** As long as no [createSingleton] returns, the static field stays [undefined]. *)
Lemma run_none_created (calls : list Call) (σ : Process) :
  ipfsStorageSingleton σ = None →
  none_created calls σ = true →
  ipfsStorageSingleton (run calls σ) = None.
Proof.
  revert σ. induction calls as [| c calls IH]; intros σ H Hnone; [exact H |].
  cbn in Hnone. apply andb_true_iff in Hnone as [Hc Hnone].
  apply (IH (step σ c)); [| exact Hnone].
  destruct c as [repo response | | that response]; cbn [step].
  - cbn in Hc. unfold createSingleton, IPFS_create in *. rewrite H in *.
    destruct response; [exact H | discriminate].
  - now rewrite getSingleton_state.
  - now rewrite stop_singleton.
Qed.

Lemma run_through_stop (before after : list Call) (this : IpfsStorage)
    (response : option Error) (σ : Process) :
  run (before ++ Stop this response :: after) σ
  = run after (stop this response (run before σ)).2.
Proof. unfold run. now rewrite foldl_app. Qed.

(** C7. While an instance is live, [createSingleton] throws the
    already-exists error and changes nothing, so the instance stays in place.
    As long as no [createSingleton] has returned since the process started,
    [getSingleton] throws the not-initialized error. [getSingleton] never
    changes the process: it creates nothing. *)
Theorem singleton_guards (σ : Process) (calls : list Call)
    (repo : option string) (response : option Error) :
  (∀ this, ipfsStorageSingleton σ = Some this →
           createSingleton repo response σ = (Throws AlreadyExists, σ))
  ∧ (none_created calls start = true →
     getSingleton (run calls start) = (Throws NotInitialized, run calls start))
  ∧ (getSingleton σ).2 = σ.
Proof.
  split; [| split].
  - intros this. apply createSingleton_live.
  - intros Hnone. unfold getSingleton.
    now rewrite (run_none_created calls start eq_refl Hnone).
  - apply getSingleton_state.
Qed.

(** C10. Once [createSingleton] has returned an instance, whatever calls
    follow, a [stop] of that instance among them, the static field still
    holds it: [createSingleton] throws the already-exists error and
    [getSingleton] returns that same instance, whose node is stopped when
    the [stop] succeeded. *)
Theorem stop_keeps_singleton (σ : Process) (repo0 : option string) (response0 : option Error)
    (this : IpfsStorage) (before after : list Call) (stop_response : option Error)
    (repo : option string) (response : option Error) :
  (createSingleton repo0 response0 σ).1 = Returns this →
  let σ' := run (before ++ Stop this stop_response :: after)
              (createSingleton repo0 response0 σ).2 in
  createSingleton repo response σ' = (Throws AlreadyExists, σ')
  ∧ getSingleton σ' = (Returns this, σ')
  ∧ (stop_response = None → running <$> nodes σ' !! node this = Some false).
Proof.
  intros Hcreate σ'.
  destruct (createSingleton_returns σ this repo0 response0 Hcreate) as [Hlive Hruns].
  assert (Hslot : ipfsStorageSingleton σ' = Some this)
    by (apply run_keeps_singleton, Hlive).
  split; [now apply (createSingleton_live σ' this) |].
  split; [unfold getSingleton; now rewrite Hslot |].
  intros ->. subst σ'. rewrite run_through_stop.
  destruct (run_keeps_node before _ (node this) true Hruns) as (b & Hb & _).
  pose proof (stop_stops _ this b Hb) as Hstopped.
  destruct (run_keeps_node after _ (node this) false Hstopped) as (b' & Hb' & Hfalse).
  rewrite Hb'. now rewrite Hfalse.
Qed.

(** After a first [createSingleton] the field is filled: a second one fails,
    and a [getSingleton] made before a failed creation finds nothing. *)
Lemma singleton_guards_witness :
  let σ := (createSingleton None None start).2 in
  let calls := [GetSingleton; CreateSingleton (Some "repo"%string) (Some "no such repo"%string)] in
  ipfsStorageSingleton σ = Some {| node := 0%nat |}
  ∧ none_created calls start = true
  ∧ createSingleton None None σ = (Throws AlreadyExists, σ)
  ∧ getSingleton (run calls start) = (Throws NotInitialized, run calls start)
  ∧ (getSingleton σ).2 = σ.
Proof.
  intros σ calls.
  destruct (singleton_guards σ calls None None) as (Hcreate & Hget & Hsame).
  split; [reflexivity |]. split; [reflexivity |].
  split; [exact (Hcreate {| node := 0%nat |} eq_refl) |].
  split; [exact (Hget eq_refl) | exact Hsame].
Defined.

(** Create, stop, then try both accessors. *)
Lemma stop_keeps_singleton_witness :
  let this := {| node := 0%nat |} in
  let σ' := run [Stop this None] (createSingleton None None start).2 in
  (createSingleton None None start).1 = Returns this
  ∧ createSingleton None None σ' = (Throws AlreadyExists, σ')
  ∧ getSingleton σ' = (Returns this, σ')
  ∧ running <$> nodes σ' !! node this = Some false.
Proof.
  intros this σ'. split; [reflexivity |].
  destruct (stop_keeps_singleton start None None this [] [] None None None eq_refl)
    as (Hcreate & Hget & Hstopped).
  split; [exact Hcreate |]. split; [exact Hget | exact (Hstopped eq_refl)].
Defined.

End SingletonFacts.

(** ** The deadline guard *)

Module AsyncTimeoutFacts.
Import AsyncTimeout.

(** C9. An operation that completes with a value before the timer fires gets
    its value back unchanged, in the wrapper. When the timer fires first,
    because the operation settles later or never, the call fails with
    [Timeout]. With a zero or negative duration the call fails with
    [Timeout] at once, whatever the operation. *)
Theorem withDeadline_race {T : Type} (operation : Operation T) (durationMs : Z) :
  (∀ ms v, operation = SettlesAfter ms (Fulfilled v) →
           0 ≤ ms < durationMs →
           withDeadline operation durationMs = Resolved v)
  ∧ (operation = NeverSettles
     ∨ (∃ ms s, operation = SettlesAfter ms s ∧ durationMs < ms) →
     withDeadline operation durationMs = Rejected Timeout)
  ∧ (durationMs ≤ 0 → withDeadline operation durationMs = Rejected Timeout).
Proof.
  unfold withDeadline. split; [| split].
  - intros ms v -> [Hms Hlt].
    replace (durationMs <=? 0) with false by (symmetry; apply Z.leb_gt; lia).
    now replace (ms <? durationMs) with true by (symmetry; apply Z.ltb_lt; lia).
  - intros [-> | (ms & s & -> & Hlate)]; destruct (durationMs <=? 0); try reflexivity.
    now replace (ms <? durationMs) with false by (symmetry; apply Z.ltb_ge; lia).
  - intros Hle. now replace (durationMs <=? 0) with true by (symmetry; apply Z.leb_le; lia).
Qed.

(** A [stat] that answers after 20 ms, raced against the 10 s of
    [IpfsStorage]; one that answers after 20 s; and a duration of zero. *)
Lemma withDeadline_race_witness :
  let metadata := Some {| DataSize := Some 3 |} in
  0 ≤ 20 < 10000
  ∧ withDeadline (SettlesAfter 20 (Fulfilled metadata)) 10000 = Resolved metadata
  ∧ withDeadline (SettlesAfter 20000 (Fulfilled metadata)) 10000 = Rejected Timeout
  ∧ withDeadline (SettlesAfter 0 (Fulfilled metadata)) 0 = Rejected Timeout.
Proof.
  intros metadata. split; [lia |].
  split; [| split].
  - destruct (withDeadline_race (SettlesAfter 20 (Fulfilled metadata)) 10000) as (Hfirst & _ & _).
    apply (Hfirst 20 metadata eq_refl). lia.
  - destruct (withDeadline_race (SettlesAfter 20000 (Fulfilled metadata)) 10000) as (_ & Hlate & _).
    apply Hlate. right. exists 20000, (Fulfilled metadata). split; [reflexivity | lia].
  - destruct (withDeadline_race (SettlesAfter 0 (Fulfilled metadata)) 0) as (_ & _ & Hzero).
    apply Hzero. lia.
Defined.

End AsyncTimeoutFacts.

(** ** [getPublicKey] *)

Module DidDocumentFacts.
Import DidDocument.

Local Open Scope nat_scope.

Lemma length_append (front t : string) :
  String.length (front ++ t) = String.length front + String.length t.
Proof. induction front as [| c front IH]; simpl; [reflexivity | now f_equal]. Qed.

Lemma substring_whole (t : string) : String.substring 0 (String.length t) t = t.
Proof. induction t as [| c t IH]; simpl; [reflexivity | now f_equal]. Qed.

Lemma substring_append (front t : string) :
  String.substring (String.length front) (String.length t) (front ++ t) = t.
Proof.
  induction front as [| c front IH]; simpl; [apply substring_whole | exact IH].
Qed.

Lemma substring_split (s : string) (n : nat) :
  n ≤ String.length s →
  s = (String.substring 0 n s ++ String.substring n (String.length s - n) s)%string.
Proof.
  revert n. induction s as [| c s IH]; intros n Hn.
  - cbn in Hn. now replace n with 0 by lia.
  - destruct n as [| n]; simpl.
    + now rewrite substring_whole.
    + change (String c s
              = String c (String.substring 0 n s
                          ++ String.substring n (String.length s - n) s)%string).
      f_equal. apply IH. simpl in Hn. lia.
Qed.

(** [endsWith] is the suffix relation. *)
Lemma endsWith_spec (s t : string) : endsWith s t = true ↔ is_suffix t s.
Proof.
  unfold endsWith, is_suffix. split.
  - destruct (Nat.leb_spec (String.length t) (String.length s)) as [Hle | Hlt];
      [| discriminate].
    intros Heq. apply String.eqb_eq in Heq.
    set (k := String.length s - String.length t) in *.
    exists (String.substring 0 k s).
    rewrite (substring_split s k) at 1 by lia.
    f_equal. rewrite <- Heq. f_equal. lia.
  - intros [front ->]. rewrite length_append.
    replace (_ <=? _) with true by (symmetry; apply Nat.leb_le; lia).
    replace (String.length front + String.length t - String.length t)
      with (String.length front) by lia.
    rewrite substring_append. apply String.eqb_refl.
Qed.

Lemma truthy_spec (s : string) : truthy s = true ↔ s ≠ ""%string.
Proof.
  unfold truthy. rewrite negb_true_iff. apply String.eqb_neq.
Qed.

Section GetPublicKey.

Context {DidPublicKeyModel : Type} (id : DidPublicKeyModel → string).

(** The test of the loop body. *)
Lemma test_spec (keyId : string) (entry : DidPublicKeyModel) :
  truthy (id entry) && endsWith (id entry) keyId = true ↔ selects id keyId entry.
Proof.
  unfold selects. now rewrite andb_true_iff, truthy_spec, endsWith_spec.
Qed.

Lemma scan_first (entries : list DidPublicKeyModel) (keyId : string) :
  first_where (selects id keyId) entries (scan id entries keyId).
Proof.
  induction entries as [| entry rest IH]; cbn [scan].
  - apply Forall_nil_2.
  - destruct (truthy (id entry) && endsWith (id entry) keyId) eqn:Htest.
    + exists [], rest. split; [reflexivity |]. split; [| apply Forall_nil_2].
      now apply test_spec.
    + assert (Hnot : ¬ selects id keyId entry)
        by (rewrite <- test_spec, Htest; discriminate).
      destruct (scan id rest keyId) as [found |]; cbn in *.
      * destruct IH as (before & after & -> & Hfound & Hbefore).
        exists (entry :: before), after. split; [reflexivity |].
        split; [exact Hfound | now apply Forall_cons_2].
      * now apply Forall_cons_2.
Qed.

(** C8, as the code has it. [getPublicKey] returns the first entry, in list
    order, whose [id] is not empty and ends with the target string, and
    [undefined] when no entry has such an [id]. *)
Theorem getPublicKey_first_selected (didDocument : DidDocumentModel DidPublicKeyModel)
    (keyId : string) :
  first_where (selects id keyId) (publicKey didDocument)
    (getPublicKey id didDocument keyId).
Proof. apply scan_first. Qed.

(** For a target that is not empty the test for an empty [id] changes
    nothing: an [id] that ends with the target is not empty. *)
Lemma selects_nonempty_target (keyId : string) (entry : DidPublicKeyModel) :
  keyId ≠ ""%string → (selects id keyId entry ↔ is_suffix keyId (id entry)).
Proof.
  intros Hne. unfold selects. split; [now intros [_ H] |].
  intros H. split; [| exact H]. destruct H as [front Hfront].
  intros Hempty. rewrite Hempty in Hfront.
  destruct front; [| discriminate]. apply Hne. symmetry. exact Hfront.
Qed.

End GetPublicKey.

(** C8, as the specification words it, fails for the empty target: the entry
    [unnamed] has the empty [id], which ends with the empty string, and the
    lookup passes it over. *)
Lemma getPublicKey_suffix_only_fails :
  ¬ finds_first_suffix Examples.id {| publicKey := [Examples.unnamed] |} "".
Proof.
  unfold finds_first_suffix. cbn. intros Hall.
  apply Forall_cons_1 in Hall as [Hnot _]. apply Hnot. now exists ""%string.
Qed.

End DidDocumentFacts.

(** ** More on the loop of [fetchContent] *)

Module LoopMore.
Import IpfsStorage Stream LoopFacts.

Lemma byteLength_app (a b : Buffer) : byteLength (a ++ b) = byteLength a + byteLength b.
Proof. unfold byteLength. rewrite length_app. lia. Qed.

Lemma byteLength_concat_snoc (chunks : list Buffer) (chunk : Buffer) :
  byteLength (Buffer_concat (chunks ++ [chunk]))
  = byteLength (Buffer_concat chunks) + byteLength chunk.
Proof.
  unfold Buffer_concat. rewrite concat_app, byteLength_app. cbn.
  now rewrite app_nil_r.
Qed.

Lemma byteLength_concat_app (front back : list Buffer) :
  byteLength (Buffer_concat (front ++ back))
  = byteLength (Buffer_concat front) + byteLength (Buffer_concat back).
Proof. unfold Buffer_concat. now rewrite concat_app, byteLength_app. Qed.

Lemma locals_eta (l : Locals) :
  {| bufferChunks := bufferChunks l ++ []; currentContentSize := currentContentSize l + 0 |} = l.
Proof. destruct l. cbn. now rewrite app_nil_r, Z.add_0_r. Qed.

(** The locals after the results [results] have been taken in. *)
Lemma doWhile_prefix (pulls : list (Z → Guarded IteratorResult))
    (results : list IteratorResult) (rest : list (Z → Guarded IteratorResult))
    (maxSizeInBytes : Z) (l : Locals) :
  yields pulls results →
  Forall (λ r, done r = false) results →
  currentContentSize l + total results ≤ maxSizeInBytes →
  ∀ l', l' = {| bufferChunks := bufferChunks l ++ chunks_of results;
                currentContentSize := currentContentSize l + total results |} →
  doWhile (pulls ++ rest) maxSizeInBytes l
  = mkAsync (repeat NextCall (length pulls) ++ trace (doWhile rest maxSizeInBytes l'))
      (outcome (doWhile rest maxSizeInBytes l')).
Proof.
  intros Hy. revert l. induction Hy as [| next result pulls results Hnext Hy IH];
    intros l Hdone Hfit l' ->.
  - cbn [app length repeat]. unfold total, chunks_of. cbn. rewrite locals_eta.
    now destruct (doWhile rest maxSizeInBytes l).
  - apply Forall_cons in Hdone as [Hd Hdone].
    rewrite total_cons in Hfit. rewrite total_cons, chunks_of_cons.
    pose proof (total_nonneg results) as Hnn.
    cbn [app doWhile length]. unfold iteration at 1. rewrite issue_then, Hnext, Hd.
    destruct (value result) as [c |]; cbn -[doWhile repeat].
    + pose proof (byteLength_nonneg c).
      replace (_ <? _) with false by (symmetry; apply Z.ltb_ge; lia).
      erewrite IH; [| exact Hdone | cbn; lia | reflexivity]. cbn.
      rewrite <- app_assoc. cbn.
      now replace (currentContentSize l + byteLength c + total results)
        with (currentContentSize l + (byteLength c + total results)) by lia.
    + erewrite IH; [| exact Hdone | cbn; lia | reflexivity]. cbn.
      now replace (currentContentSize l + (0 + total results))
        with (currentContentSize l + total results) by lia.
Qed.

(** A stream that runs to its end within the limit: the loop runs out, with
    every delivered chunk in the buffer. *)
Lemma doWhile_completes (iterator : list (Z → Guarded IteratorResult))
    (maxSizeInBytes : Z) (l : Locals) :
  completed iterator = true →
  currentContentSize l + byteLength (Buffer_concat (delivered iterator)) ≤ maxSizeInBytes →
  outcome (doWhile iterator maxSizeInBytes l)
  = Returns (None,
             {| bufferChunks := bufferChunks l ++ delivered iterator;
                currentContentSize :=
                  currentContentSize l + byteLength (Buffer_concat (delivered iterator)) |}).
Proof.
  revert l. induction iterator as [| next iterator' IH]; intros l Hc Hfit;
    cbn [doWhile]; unfold iteration; rewrite issue_then; cbn [outcome].
  - cbn. now rewrite locals_eta.
  - cbn [completed delivered] in *.
    destruct (next timeoutDuration) as [e | [result |]]; [discriminate | | discriminate].
    destruct (value result) as [chunk |];
      [change (option_list (Some chunk)) with [chunk] in *
      |change (option_list (@None Buffer)) with (@nil Buffer) in *];
      rewrite byteLength_concat_app in Hfit.
    + pose proof (byteLength_nonneg chunk).
      assert (Hchunk : byteLength (Buffer_concat [chunk]) = byteLength chunk)
        by (unfold Buffer_concat; cbn; now rewrite app_nil_r).
      rewrite Hchunk in Hfit.
      destruct (done result).
      * change (byteLength (Buffer_concat [])) with 0 in Hfit.
        replace (_ <? _) with false by (symmetry; apply Z.ltb_ge; lia).
        cbn [outcome mret Async_ret]. rewrite app_nil_r, Hchunk. reflexivity.
      * pose proof (byteLength_nonneg (Buffer_concat (delivered iterator'))).
        replace (_ <? _) with false by (symmetry; apply Z.ltb_ge; lia).
        rewrite IH; [| exact Hc | cbn [currentContentSize]; lia].
        cbn [bufferChunks currentContentSize].
        rewrite <- app_assoc.
        rewrite (byteLength_concat_app [chunk]), Hchunk.
        now rewrite Z.add_assoc.
    + change (byteLength (Buffer_concat [])) with 0 in Hfit.
      cbn [app]. destruct (done result).
      * cbn [outcome mret Async_ret]. now rewrite locals_eta.
      * rewrite IH; [| exact Hc | lia]. reflexivity.
Qed.

(** The running total is the size of the buffer, and stays within a limit
    that is not negative, whenever the loop runs out. *)
Lemma doWhile_bound (iterator : list (Z → Guarded IteratorResult))
    (maxSizeInBytes : Z) (l l' : Locals) :
  outcome (doWhile iterator maxSizeInBytes l) = Returns (None, l') →
  currentContentSize l = byteLength (Buffer_concat (bufferChunks l)) →
  currentContentSize l ≤ maxSizeInBytes →
  currentContentSize l' = byteLength (Buffer_concat (bufferChunks l'))
  ∧ currentContentSize l' ≤ maxSizeInBytes.
Proof.
  revert l. induction iterator as [| next iterator' IH]; intros l;
    cbn [doWhile]; unfold iteration; rewrite issue_then; cbn [outcome].
  - cbn. intros [= <-]. auto.
  - destruct (next timeoutDuration) as [e | [result |]]; cbn; [discriminate | | discriminate].
    destruct (value result) as [chunk |].
    + destruct (Z.ltb_spec maxSizeInBytes (currentContentSize l + byteLength chunk))
        as [Hover | Hfit]; [discriminate |].
      destruct (done result).
      * intros [= <-] Hsize Hle. cbn. rewrite byteLength_concat_snoc. split; lia.
      * intros H Hsize Hle. apply IH in H; [exact H | |]; cbn; [| exact Hfit].
        rewrite byteLength_concat_snoc. lia.
    + destruct (done result).
      * intros [= <-]. auto.
      * apply IH.
Qed.

End LoopMore.

(** ** More on [fetchContent] and [read] *)

Module ReadMore.
Import IpfsStorage Stream LoopFacts FetchFacts ReadFacts LoopMore.

Section Read.

Variable node : IPFS.
Variables (hash : string) (maxSizeInBytes : Z).



(** X3. The remote calls of a [read], in order: the [stat] of the identifier;
    then, if the read goes on, the [cat] of the identifier and pulls on its
    stream; then, if at all, one pin call of the identifier, last. *)
Theorem read_call_order :
  ∃ n : nat,
    trace (read node hash maxSizeInBytes) = [StatCall hash]
    ∨ trace (read node hash maxSizeInBytes)
      = StatCall hash :: CatCall hash :: repeat NextCall n
    ∨ trace (read node hash maxSizeInBytes)
      = StatCall hash :: CatCall hash :: repeat NextCall n ++ [PinAddCall hash].
Proof.
  destruct (read_cases node hash maxSizeInBytes) as [(c & Hc & ->) | (r & Hr & ->)].
  - exists 0%nat. now left.
  - destruct (fetchContent_trace node hash maxSizeInBytes) as [n Hn].
    exists n. unfold after_fetch. rewrite Hn.
    destruct (decide (code r = Success)); cbn; auto.
Qed.

(** X4. The probe lets the read through, the stream runs to its end, what it
    delivers is no larger than the limit, and the pin call returns. Then
    [read] returns [Success] with everything the stream delivered as content,
    and has made one pin call. A content of exactly [maxSizeInBytes] bytes
    is within the limit. *)
Theorem read_success (contentMetadata : Stat) (dataSize : Z)
    (iterator : list (Z → Guarded IteratorResult)) :
  object_stat node hash timeoutDuration = Resolved (Some contentMetadata) →
  DataSize contentMetadata = Some dataSize →
  dataSize ≤ maxSizeInBytes →
  cat node hash = inr iterator →
  completed iterator = true →
  byteLength (Buffer_concat (delivered iterator)) ≤ maxSizeInBytes →
  pin_add node hash = Returns () →
  outcome (read node hash maxSizeInBytes)
  = Returns {| code := Success; content := Some (Buffer_concat (delivered iterator)) |}
  ∧ pins (read node hash maxSizeInBytes) = [PinAddCall hash].
Proof.
  intros Hstat Hsize Hle Hcat Hc Hfit Hpin.
  assert (Hfetch : outcome (fetchContent node hash maxSizeInBytes)
                   = Returns {| code := Success;
                                content := Some (Buffer_concat (delivered iterator)) |}).
  { rewrite fetchContent_cases, Hcat. cbn zeta. cbn [outcome].
    now rewrite (doWhile_completes iterator maxSizeInBytes fresh_locals Hc Hfit). }
  rewrite (read_through node hash maxSizeInBytes _ _ Hstat Hsize Hle _ Hfetch).
  rewrite pins_after_fetch. unfold after_fetch. cbn. now rewrite Hpin.
Qed.

(** X5. The probe lets the read through and, after pulls whose chunks fit
    within the limit, a guarded pull yields nothing at all ([undefined]).
    Then [read] returns [{ code: NotFound }] at that pull: the chunks it had
    are dropped and no pin call is made. *)
Theorem read_stream_cut_not_found (contentMetadata : Stat) (dataSize : Z)
    (pulls : list (Z → Guarded IteratorResult)) (results : list IteratorResult)
    (cut : Z → Guarded IteratorResult) (rest : list (Z → Guarded IteratorResult)) :
  object_stat node hash timeoutDuration = Resolved (Some contentMetadata) →
  DataSize contentMetadata = Some dataSize →
  dataSize ≤ maxSizeInBytes →
  cat node hash = inr (pulls ++ cut :: rest) →
  yields pulls results →
  Forall (λ r, done r = false) results →
  total results ≤ maxSizeInBytes →
  cut timeoutDuration = Resolved None →
  read node hash maxSizeInBytes
  = mkAsync (StatCall hash :: CatCall hash :: repeat NextCall (S (length pulls)))
      (Returns (code_only NotFound)).
Proof.
  intros Hstat Hsize Hle Hcat Hy Hdone Hfit Hcut.
  assert (Hfetch : fetchContent node hash maxSizeInBytes
                   = mkAsync (CatCall hash :: repeat NextCall (S (length pulls)))
                       (Returns (code_only NotFound))).
  { rewrite fetchContent_cases, Hcat. cbn zeta.
    rewrite (doWhile_prefix pulls results (cut :: rest) maxSizeInBytes fresh_locals
               Hy Hdone Hfit _ eq_refl).
    cbn [doWhile]. unfold iteration. rewrite issue_then, Hcut. cbn.
    now rewrite <- repeat_cons. }
  rewrite (read_through node hash maxSizeInBytes _ _ Hstat Hsize Hle (code_only NotFound))
    by now rewrite Hfetch.
  now rewrite Hfetch.
Qed.

(** X6. The probe lets the read through and the stream fails: [cat] throws,
    or, after pulls whose chunks fit within the limit, a guarded pull throws
    (a timeout that the guard throws included). Then [read] returns
    [{ code: NotAFile }] and makes no pin call. *)
Theorem read_stream_error_not_a_file (contentMetadata : Stat) (dataSize : Z) :
  object_stat node hash timeoutDuration = Resolved (Some contentMetadata) →
  DataSize contentMetadata = Some dataSize →
  dataSize ≤ maxSizeInBytes →
  (∃ e, cat node hash = inl e)
  ∨ (∃ pulls results failing rest e,
       cat node hash = inr (pulls ++ failing :: rest)
       ∧ yields pulls results
       ∧ Forall (λ r, done r = false) results
       ∧ total results ≤ maxSizeInBytes
       ∧ failing timeoutDuration = Rejected e) →
  outcome (read node hash maxSizeInBytes) = Returns (code_only NotAFile)
  ∧ pins (read node hash maxSizeInBytes) = [].
Proof.
  intros Hstat Hsize Hle Hfail.
  assert (Hfetch : outcome (fetchContent node hash maxSizeInBytes)
                   = Returns (code_only NotAFile)).
  { rewrite fetchContent_cases.
    destruct Hfail as [[e ->] | (pulls & results & failing & rest & e
                                 & -> & Hy & Hdone & Hfit & Hfailing)];
      [reflexivity |].
    cbn zeta. cbn [outcome].
    rewrite (doWhile_prefix pulls results (failing :: rest) maxSizeInBytes fresh_locals
               Hy Hdone Hfit _ eq_refl).
    cbn [doWhile outcome]. unfold iteration. now rewrite issue_then, Hfailing. }
  rewrite (read_through node hash maxSizeInBytes _ _ Hstat Hsize Hle _ Hfetch).
  rewrite pins_after_fetch. unfold after_fetch. now cbn.
Qed.

(** X7. With a limit that is not negative, a [read] that returns [Success]
    has found a declared size within the limit, and returns a content whose
    size is within the limit. *)
Theorem read_success_within_limit (r : FetchResult) :
  0 ≤ maxSizeInBytes →
  outcome (read node hash maxSizeInBytes) = Returns r →
  code r = Success →
  (∃ contentMetadata dataSize,
     object_stat node hash timeoutDuration = Resolved (Some contentMetadata)
     ∧ DataSize contentMetadata = Some dataSize
     ∧ dataSize ≤ maxSizeInBytes)
  ∧ (∃ c, content r = Some c ∧ byteLength c ≤ maxSizeInBytes).
Proof.
  intros Hmax Hr Hs. split.
  - revert Hr. unfold read. rewrite issue_then. cbn [outcome].
    destruct (object_stat node hash timeoutDuration) as [e | [[[dataSize |]] |]]; cbn;
      try (intros [= <-]; discriminate).
    destruct (Z.gtb_spec dataSize maxSizeInBytes) as [Hgt | Hle];
      [intros [= <-]; discriminate |].
    intros _. eexists _, dataSize. auto.
  - destruct (read_cases node hash maxSizeInBytes) as [(c & Hc & Heq) | (r' & Hr' & Heq)];
      rewrite Heq in Hr.
    + injection Hr as <-. cbn in Hs. now destruct Hc; subst.
    + assert (r' = r) as ->.
      { revert Hr. unfold after_fetch. destruct (decide (code r' = Success)); cbn;
          [destruct (pin_add node hash) |]; congruence. }
      clear Heq Hr. rewrite fetchContent_cases in Hr'.
      destruct (cat node hash) as [e | iterator]; cbn in Hr';
        [injection Hr' as <-; discriminate |].
      destruct (outcome (doWhile iterator maxSizeInBytes fresh_locals))
        as [[[r0 |] l] | e |] eqn:Hloop; injection Hr' as <-.
      * apply doWhile_returns in Hloop. now destruct Hloop; subst.
      * apply doWhile_bound in Hloop as [Hsize Hle]; [| reflexivity | exact Hmax].
        exists (Buffer_concat (bufferChunks l)). split; [reflexivity | lia].
      * discriminate.
      * discriminate.
Qed.

End Read.

Section WriteThenRead.

Import IpfsStorageWrite.

Variable node : IPFS.
Variable add_next : Buffer → Outcome (option AddResult).

(** X8. Write, then read back. [add] files the content under an identifier;
    under it the store declares a size within the limit and streams, to the
    end, chunks that make up the content, itself within the limit; the pin
    call returns. Then [write] returns that identifier and [read] of it
    returns [Success] with the content written. *)
Theorem write_then_read (content : Buffer) (maxSizeInBytes : Z) (identifier : string)
    (file : AddResult) (contentMetadata : Stat) (dataSize : Z)
    (iterator : list (Z → Guarded IteratorResult)) :
  add_next content = Returns (Some file) →
  IpfsStorageWrite.value file = Some {| cid := identifier |} →
  object_stat node identifier timeoutDuration = Resolved (Some contentMetadata) →
  DataSize contentMetadata = Some dataSize →
  dataSize ≤ maxSizeInBytes →
  cat node identifier = inr iterator →
  completed iterator = true →
  Buffer_concat (delivered iterator) = content →
  byteLength content ≤ maxSizeInBytes →
  pin_add node identifier = Returns () →
  write add_next content = Returns identifier
  ∧ outcome (read node identifier maxSizeInBytes)
    = Returns {| code := Success; content := Some content |}.
Proof.
  intros Hadd Hvalue Hstat Hsize Hle Hcat Hc Hsame Hfit Hpin.
  split.
  - unfold write. now rewrite Hadd, Hvalue.
  - rewrite <- Hsame in Hfit |- *.
    assert (Hfetch : outcome (fetchContent node identifier maxSizeInBytes)
                     = Returns {| code := Success;
                                  content := Some (Buffer_concat (delivered iterator)) |}).
    { rewrite fetchContent_cases, Hcat. cbn zeta. cbn [outcome].
      now rewrite (doWhile_completes iterator maxSizeInBytes fresh_locals Hc Hfit). }
    rewrite (read_through node identifier maxSizeInBytes _ _ Hstat Hsize Hle _ Hfetch).
    unfold after_fetch. cbn. now rewrite Hpin.
Qed.

End WriteThenRead.

End ReadMore.

(** ** The further properties of [read] on the sample stores *)

Module ReadMoreWitnesses.
Import IpfsStorage Stream Examples MoreExamples AsyncTimeout.
Import ReadMore.

(** [QmAbc], three bytes, read with a limit of exactly three. *)
Lemma read_success_witness :
  let iterator := [answers 5 {| value := Some [Byte.x61; Byte.x62]; done := false |};
                   answers 5 {| value := Some [Byte.x63]; done := false |}] in
  completed iterator = true
  ∧ byteLength (Buffer_concat (delivered iterator)) ≤ 3
  ∧ outcome (read (store (Returns ())) "QmAbc" 3)
    = Returns {| code := Success; content := Some abc |}
  ∧ pins (read (store (Returns ())) "QmAbc" 3) = [PinAddCall "QmAbc"].
Proof.
  intros iterator.
  assert (Hfit : byteLength (Buffer_concat (delivered iterator)) ≤ 3)
    by (vm_compute; discriminate).
  split; [reflexivity |]. split; [exact Hfit |].
  exact (read_success (store (Returns ())) "QmAbc" 3 {| DataSize := Some 3 |} 3 iterator
           eq_refl eq_refl ltac:(lia) eq_refl eq_refl Hfit eq_refl).
Defined.

(** The stream of [QmCut] gives one byte, then nothing. *)
Lemma read_stream_cut_not_found_witness :
  let first := {| value := Some [Byte.x61]; done := false |} in
  yields [answers 5 first] [first]
  ∧ total [first] ≤ 10
  ∧ read cut_store "QmCut" 10
    = mkAsync [StatCall "QmCut"; CatCall "QmCut"; NextCall; NextCall]
        (Returns (code_only NotFound)).
Proof.
  intros first.
  assert (Hy : yields [answers 5 first] [first]) by (constructor; [reflexivity | constructor]).
  assert (Hfit : total [first] ≤ 10) by (vm_compute; discriminate).
  split; [exact Hy |]. split; [exact Hfit |].
  apply (read_stream_cut_not_found cut_store "QmCut" 10 {| DataSize := Some 3 |} 3
           [answers 5 first] [first] (withDeadline (SettlesAfter 5 (Fulfilled None)))
           [answers 5 {| value := Some [Byte.x62]; done := true |}]).
  - reflexivity.
  - reflexivity.
  - lia.
  - reflexivity.
  - exact Hy.
  - constructor; [reflexivity | constructor].
  - exact Hfit.
  - reflexivity.
Defined.

(** The stream of [QmSlow] gives one byte, then stalls: the guard of the
    second pull times out, and the read is reported as not a file. *)
Lemma read_stream_error_not_a_file_witness :
  let first := {| value := Some [Byte.x61]; done := false |} in
  cat slow_store "QmSlow" = inr ([answers 5 first] ++ [withDeadline NeverSettles])
  ∧ withDeadline (T := IteratorResult) NeverSettles timeoutDuration = Rejected Timeout
  ∧ outcome (read slow_store "QmSlow" 10) = Returns (code_only NotAFile)
  ∧ pins (read slow_store "QmSlow" 10) = [].
Proof.
  intros first. split; [reflexivity |]. split; [reflexivity |].
  apply (read_stream_error_not_a_file slow_store "QmSlow" 10 {| DataSize := Some 3 |} 3).
  - reflexivity.
  - reflexivity.
  - lia.
  - right. exists [answers 5 first], [first], (withDeadline NeverSettles), [], Timeout.
    split; [reflexivity |].
    split; [constructor; [reflexivity | constructor] |].
    split; [constructor; [reflexivity | constructor] |].
    split; [vm_compute; discriminate | reflexivity].
Defined.

(** [QmAbc] read with a limit of ten: three bytes declared, three returned. *)
Lemma read_success_within_limit_witness :
  let r := {| code := Success; content := Some abc |} in
  0 ≤ 10
  ∧ outcome (read (store (Returns ())) "QmAbc" 10) = Returns r
  ∧ (∃ contentMetadata dataSize,
       object_stat (store (Returns ())) "QmAbc" timeoutDuration
       = Resolved (Some contentMetadata)
       ∧ DataSize contentMetadata = Some dataSize
       ∧ dataSize ≤ 10)
  ∧ (∃ c, content r = Some c ∧ byteLength c ≤ 10).
Proof.
  intros r. split; [lia |]. split; [reflexivity |].
  exact (read_success_within_limit (store (Returns ())) "QmAbc" 10 r
           ltac:(lia) eq_refl eq_refl).
Defined.

(** [abc] written to a store that files it under [QmAbc], and read back with
    a limit of three. *)
Lemma write_then_read_witness :
  IpfsStorageWrite.write add_abc abc = Returns "QmAbc"%string
  ∧ outcome (read (store (Returns ())) "QmAbc" 3)
    = Returns {| code := Success; content := Some abc |}.
Proof.
  apply (write_then_read (store (Returns ())) add_abc abc 3 "QmAbc"
           {| IpfsStorageWrite.value := Some {| IpfsStorageWrite.cid := "QmAbc" |};
              IpfsStorageWrite.done := false |}
           {| DataSize := Some 3 |} 3
           [answers 5 {| value := Some [Byte.x61; Byte.x62]; done := false |};
            answers 5 {| value := Some [Byte.x63]; done := false |}]).
  - reflexivity.
  - reflexivity.
  - reflexivity.
  - reflexivity.
  - lia.
  - reflexivity.
  - reflexivity.
  - reflexivity.
  - vm_compute; discriminate.
  - reflexivity.
Defined.

End ReadMoreWitnesses.

(** ** More on the singleton *)

Module SingletonMore.
Import IpfsStorage SingletonFacts ProcessInvariant.

(** The repository [createSingleton] opens the node at. *)
Lemma createSingleton_opens (σ : Process) (repo : option string) :
  ipfsStorageSingleton σ = None →
  createSingleton repo None σ
  = (Returns {| node := fresh (dom (nodes σ)) |},
     {| ipfsStorageSingleton := Some {| node := fresh (dom (nodes σ)) |};
        nodes := <[fresh (dom (nodes σ)) :=
                    {| repo := default "sidetree-ipfs"%string repo; running := true |}]>
                   (nodes σ) |}).
Proof.
  intros H. unfold createSingleton, IPFS_create. rewrite H. now destruct repo.
Qed.

(** X9. With no instance live and [IPFS.create] succeeding, [createSingleton]
    returns a new instance over a node that was not open before, opened at
    the repository given, or at ["sidetree-ipfs"] when none is given, and
    running; [getSingleton] then returns that same instance. *)
Theorem createSingleton_then_get (σ : Process) (repo : option string) :
  ipfsStorageSingleton σ = None →
  ∃ this,
    (createSingleton repo None σ).1 = Returns this
    ∧ nodes σ !! node this = None
    ∧ nodes (createSingleton repo None σ).2 !! node this
      = Some {| repo := default "sidetree-ipfs"%string repo; running := true |}
    ∧ getSingleton (createSingleton repo None σ).2
      = (Returns this, (createSingleton repo None σ).2).
Proof.
  intros H. rewrite (createSingleton_opens σ repo H).
  exists {| node := fresh (dom (nodes σ)) |}. cbn.
  split; [reflexivity |]. split; [| split].
  - apply not_elem_of_dom, is_fresh.
  - apply lookup_insert_eq.
  - reflexivity.
Qed.

Lemma run_created (calls : list Call) (σ : Process) :
  none_created calls σ = false →
  ∃ this, ipfsStorageSingleton (run calls σ) = Some this.
Proof.
  revert σ. induction calls as [| c calls IH]; intros σ Hsome; [discriminate |].
  cbn in Hsome. apply andb_false_iff in Hsome as [Hc | Hrest].
  - apply negb_false_iff in Hc.
    destruct c as [repo response | | that response]; try discriminate.
    cbn in Hc.
    destruct (createSingleton repo response σ).1 as [this | |] eqn:Hcreate;
      try discriminate.
    exists this. apply (run_keeps_singleton calls (step σ (CreateSingleton repo response))).
    exact (proj1 (createSingleton_returns σ this repo response Hcreate)).
  - exact (IH _ Hrest).
Qed.

(** X10. In every execution from the start of the process, [getSingleton]
    throws the not-initialized error if no [createSingleton] has returned so
    far, and returns an instance, changing nothing, if one has. A
    [createSingleton] that failed because [IPFS.create] threw counts for
    nothing. *)
Theorem getSingleton_iff_created (calls : list Call) :
  (none_created calls start = true
   ∧ getSingleton (run calls start) = (Throws NotInitialized, run calls start))
  ∨ (none_created calls start = false
     ∧ ∃ this, getSingleton (run calls start) = (Returns this, run calls start)).
Proof.
  destruct (none_created calls start) eqn:Hnone; [left | right]; (split; [reflexivity |]).
  - unfold getSingleton. now rewrite (run_none_created calls start eq_refl Hnone).
  - destruct (run_created calls start Hnone) as [this Hthis].
    exists this. unfold getSingleton. now rewrite Hthis.
Qed.



(** From the start of the process, with the default repository. *)
Lemma createSingleton_then_get_witness :
  ipfsStorageSingleton start = None
  ∧ ∃ this,
      (createSingleton None None start).1 = Returns this
      ∧ nodes start !! node this = None
      ∧ nodes (createSingleton None None start).2 !! node this
        = Some {| repo := "sidetree-ipfs"; running := true |}
      ∧ getSingleton (createSingleton None None start).2
        = (Returns this, (createSingleton None None start).2).
Proof.
  split; [reflexivity |].
  exact (createSingleton_then_get start None eq_refl).
Defined.

End SingletonMore.

(** ** More on [getPublicKey] *)

Module DidDocumentMore.
Import DidDocument DidDocumentFacts.

Lemma append_empty_r (s : string) : (s ++ "")%string = s.
Proof.
  induction s as [| c s IH]; [reflexivity |].
  change (String c (s ++ "") = String c s). now f_equal.
Qed.

Lemma append_assoc (a b c : string) : ((a ++ b) ++ c)%string = (a ++ (b ++ c))%string.
Proof.
  induction a as [| x a IH]; [reflexivity |].
  change (String x ((a ++ b) ++ c) = String x (a ++ (b ++ c))). now f_equal.
Qed.

Lemma endsWith_empty (s : string) : endsWith s "" = true.
Proof. apply endsWith_spec. exists s. symmetry. apply append_empty_r. Qed.

Lemma endsWith_longer (s t : string) :
  (String.length s < String.length t)%nat → endsWith s t = false.
Proof.
  intros Hlt. unfold endsWith. cbn zeta.
  now rewrite (proj2 (Nat.leb_gt _ _) Hlt).
Qed.

Section GetPublicKey.

Context {DidPublicKeyModel : Type} (id : DidPublicKeyModel → string).

Lemma scan_app (front back : list DidPublicKeyModel) (keyId : string) :
  scan id (front ++ back) keyId
  = match scan id front keyId with
    | Some entry => Some entry
    | None => scan id back keyId
    end.
Proof.
  induction front as [| entry front IH]; cbn [app scan]; [reflexivity |].
  now destruct (truthy (id entry) && endsWith (id entry) keyId).
Qed.

(** X12. Looking a key up in a document whose key list is one list followed
    by another gives what the lookup gives in the first list, and only when
    that finds nothing what it gives in the second: an earlier entry that
    matches hides every later one. *)
Theorem getPublicKey_app (front back : list DidPublicKeyModel) (keyId : string) :
  getPublicKey id {| publicKey := front ++ back |} keyId
  = match getPublicKey id {| publicKey := front |} keyId with
    | Some entry => Some entry
    | None => getPublicKey id {| publicKey := back |} keyId
    end.
Proof. unfold getPublicKey. cbn [publicKey]. apply scan_app. Qed.

(** X13. With the empty string as target every [id] is a match: the lookup
    returns the first entry whose [id] is not empty, and [undefined] when
    every [id] is empty. *)
Theorem getPublicKey_empty_target (didDocument : DidDocumentModel DidPublicKeyModel) :
  getPublicKey id didDocument ""
  = List.find (λ entry, truthy (id entry)) (publicKey didDocument).
Proof.
  unfold getPublicKey. induction (publicKey didDocument) as [| entry rest IH];
    cbn [scan List.find]; [reflexivity |].
  rewrite endsWith_empty, andb_true_r. now destruct (truthy (id entry)).
Qed.

(** X14. A target longer than the [id] of every entry finds nothing. So does
    any target in a document without keys. *)
Theorem getPublicKey_long_target (didDocument : DidDocumentModel DidPublicKeyModel)
    (keyId : string) :
  Forall (λ entry, (String.length (id entry) < String.length keyId)%nat)
    (publicKey didDocument) →
  getPublicKey id didDocument keyId = None.
Proof.
  unfold getPublicKey. induction 1 as [| entry rest Hshort _ IH]; cbn [scan];
    [reflexivity |].
  now rewrite (endsWith_longer _ _ Hshort), andb_false_r.
Qed.

Lemma scan_finds (entries : list DidPublicKeyModel) (keyId : string)
    (entry : DidPublicKeyModel) :
  entry ∈ entries → selects id keyId entry →
  ∃ found, scan id entries keyId = Some found ∧ selects id keyId found.
Proof.
  intros Hin Hsel. pose proof (scan_first id entries keyId) as Hfirst.
  destruct (scan id entries keyId) as [found |]; cbn in Hfirst.
  - exists found. split; [reflexivity |]. now destruct Hfirst as (? & ? & _ & ? & _).
  - rewrite Forall_forall in Hfirst. destruct (Hfirst entry Hin Hsel).
Qed.

Lemma scan_member (entries : list DidPublicKeyModel) (keyId : string)
    (entry : DidPublicKeyModel) :
  scan id entries keyId = Some entry → entry ∈ entries ∧ selects id keyId entry.
Proof.
  intros Hscan. pose proof (scan_first id entries keyId) as Hfirst.
  rewrite Hscan in Hfirst. destruct Hfirst as (before & after & -> & Hsel & _).
  split; [| exact Hsel]. apply elem_of_app. right. apply list_elem_of_here.
Qed.

(** X15. Shortening the target from the front never loses a match: when the
    lookup finds an entry for a target, it finds one, the same or an earlier
    one that matches, for every ending of that target. *)
Theorem getPublicKey_shorter_target (didDocument : DidDocumentModel DidPublicKeyModel)
    (front keyId : string) (entry : DidPublicKeyModel) :
  getPublicKey id didDocument (front ++ keyId) = Some entry →
  ∃ found, getPublicKey id didDocument keyId = Some found
           ∧ found ∈ publicKey didDocument
           ∧ id found ≠ ""%string
           ∧ is_suffix keyId (id found).
Proof.
  unfold getPublicKey. intros Hscan.
  apply scan_member in Hscan as [Hin [Hne [lead Hlead]]].
  assert (Hsel : selects id keyId entry).
  { split; [exact Hne |]. exists (lead ++ front)%string.
    now rewrite append_assoc. }
  destruct (scan_finds _ keyId entry Hin Hsel) as (found & Hfound & Hsel').
  exists found. split; [exact Hfound |].
  apply scan_member in Hfound as [Hin' [Hne' Hsuffix]]. auto.
Qed.

End GetPublicKey.

(** A document with [key1] and [key2]: the fragment ["#key2"] finds [key2],
    and so does its ending ["key2"]. *)
Lemma getPublicKey_shorter_target_witness :
  let doc := {| publicKey := [MoreExamples.key1; MoreExamples.key2] |} in
  getPublicKey Examples.id doc ("#" ++ "key2") = Some MoreExamples.key2
  ∧ ∃ found, getPublicKey Examples.id doc "key2" = Some found
             ∧ found ∈ publicKey doc
             ∧ Examples.id found ≠ ""%string
             ∧ is_suffix "key2" (Examples.id found).
Proof.
  intros doc. split; [reflexivity |].
  exact (getPublicKey_shorter_target Examples.id doc "#" "key2" MoreExamples.key2 eq_refl).
Defined.

(** A target of thirty characters against ids of at most twenty-one. *)
Lemma getPublicKey_long_target_witness :
  let doc := {| publicKey := [MoreExamples.key1; MoreExamples.bare1] |} in
  Forall (λ entry, (String.length (Examples.id entry)
                    < String.length "did:sidetree:abcdefghijk#key1")%nat)
    (publicKey doc)
  ∧ getPublicKey Examples.id doc "did:sidetree:abcdefghijk#key1" = None.
Proof.
  intros doc.
  assert (H : Forall (λ entry, (String.length (Examples.id entry)
                                < String.length "did:sidetree:abcdefghijk#key1")%nat)
                (publicKey doc))
    by (repeat constructor).
  split; [exact H |].
  exact (getPublicKey_long_target Examples.id doc "did:sidetree:abcdefghijk#key1" H).
Defined.

End DidDocumentMore.

(** ** [read] under different limits *)

Module ReadLimits.
Import IpfsStorage Stream LoopFacts FetchFacts ReadFacts LoopMore.

Section Limits.

Variable node : IPFS.
Variable hash : string.

(** What a [Success] tells about the store. *)
Lemma read_success_inv (maxSizeInBytes : Z) (r : FetchResult) :
  0 ≤ maxSizeInBytes →
  outcome (read node hash maxSizeInBytes) = Returns r →
  code r = Success →
  ∃ contentMetadata dataSize iterator,
    object_stat node hash timeoutDuration = Resolved (Some contentMetadata)
    ∧ DataSize contentMetadata = Some dataSize
    ∧ dataSize ≤ maxSizeInBytes
    ∧ cat node hash = inr iterator
    ∧ completed iterator = true
    ∧ r = {| code := Success; content := Some (Buffer_concat (delivered iterator)) |}
    ∧ byteLength (Buffer_concat (delivered iterator)) ≤ maxSizeInBytes
    ∧ pin_add node hash = Returns ().
Proof.
  intros Hmax Hr Hs.
  assert (Hprobe : ∃ contentMetadata dataSize,
             object_stat node hash timeoutDuration = Resolved (Some contentMetadata)
             ∧ DataSize contentMetadata = Some dataSize
             ∧ dataSize ≤ maxSizeInBytes).
  { revert Hr. unfold read. rewrite issue_then. cbn [outcome].
    destruct (object_stat node hash timeoutDuration) as [e | [[[dataSize |]] |]]; cbn;
      try (intros [= <-]; discriminate).
    destruct (Z.gtb_spec dataSize maxSizeInBytes) as [Hgt | Hle];
      [intros [= <-]; discriminate |].
    intros _. eexists _, dataSize. auto. }
  destruct Hprobe as (contentMetadata & dataSize & Hstat & Hsize & Hle).
  exists contentMetadata, dataSize.
  destruct (fetchContent_returns node hash maxSizeInBytes) as [r' Hr'].
  rewrite (read_through node hash maxSizeInBytes _ _ Hstat Hsize Hle r' Hr') in Hr.
  unfold after_fetch in Hr.
  destruct (decide (code r' = Success)) as [Hs' | Hs']; cbn in Hr;
    [| injection Hr as ->; contradiction].
  destruct (pin_add node hash) as [[] | e |]; try discriminate.
  injection Hr as ->. clear Hs'.
  rewrite fetchContent_cases in Hr'.
  destruct (cat node hash) as [e | iterator]; cbn in Hr';
    [injection Hr' as <-; discriminate |].
  exists iterator.
  destruct (outcome (doWhile iterator maxSizeInBytes fresh_locals))
    as [[[r0 |] l] | e |] eqn:Hloop; injection Hr' as <-.
  - apply doWhile_returns in Hloop. now destruct Hloop; subst.
  - pose proof (doWhile_bound _ _ _ _ Hloop eq_refl Hmax) as [Hbuffer Hfit].
    apply doWhile_returns in Hloop as [Hc Hchunks]. cbn in Hchunks.
    rewrite Hchunks in *. repeat (split; [assumption || reflexivity || lia |]).
    reflexivity.
  - discriminate.
  - discriminate.
Qed.

(** X16. Raising the limit never loses a success: a [read] that returns
    [Success] under a limit that is not negative returns the same result
    under every larger limit. *)
Theorem read_larger_limit (maxSizeInBytes larger : Z) (r : FetchResult) :
  0 ≤ maxSizeInBytes ≤ larger →
  outcome (read node hash maxSizeInBytes) = Returns r →
  code r = Success →
  outcome (read node hash larger) = Returns r.
Proof.
  intros [Hmax Hlarger] Hr Hs.
  destruct (read_success_inv maxSizeInBytes r Hmax Hr Hs)
    as (contentMetadata & dataSize & iterator
        & Hstat & Hsize & Hle & Hcat & Hc & -> & Hfit & Hpin).
  assert (Hfetch : outcome (fetchContent node hash larger)
                   = Returns {| code := Success;
                                content := Some (Buffer_concat (delivered iterator)) |}).
  { rewrite fetchContent_cases, Hcat. cbn zeta. cbn [outcome].
    rewrite (doWhile_completes iterator larger fresh_locals Hc); [reflexivity |].
    cbn. lia. }
  rewrite (read_through node hash larger _ _ Hstat Hsize ltac:(lia) _ Hfetch).
  unfold after_fetch. cbn. now rewrite Hpin.
Qed.

End Limits.

(** [QmAbc] read with a limit of three, then of a thousand. *)
Lemma read_larger_limit_witness :
  let r := {| code := Success; content := Some Examples.abc |} in
  0 ≤ 3 ≤ 1000
  ∧ outcome (read (Examples.store (Returns ())) "QmAbc" 3) = Returns r
  ∧ outcome (read (Examples.store (Returns ())) "QmAbc" 1000) = Returns r.
Proof.
  intros r. split; [lia |]. split; [reflexivity |].
  exact (read_larger_limit (Examples.store (Returns ())) "QmAbc" 3 1000 r
           ltac:(lia) eq_refl eq_refl).
Defined.

End ReadLimits.
